(** * fractal_tree.Mesh: the triangulated surface and the projection onto it

    A shallow embedding of [src/fractal_tree/Mesh.py]: the constructor
    [Mesh.__init__] (connectivity inversion [node_to_tri], per-triangle
    normals) and [Mesh.project_new_point].

    The arithmetic of the source is numpy's.  The embedding is written once
    over a [Scalar] interface and instantiated twice:
    - [float_scalar]: IEEE binary64 (Rocq's primitive floats), what numpy
      runs; used to evaluate the code on concrete meshes;
    - [R_scalar]: the real numbers, for statements about exact arithmetic. *)

From Stdlib Require Import ZArith List Reals Lra Lia Floats.
From stdpp Require Import base option list sorting gmap.

Set Warnings "-inexact-float".

(** ** Scalars *)

Class Scalar (F : Type) := {
  s_zero : F;                 (* the literal 0 *)
  s_one : F;                  (* the literal 1 *)
  s_tol : F;                  (* the literal 1.001 *)
  s_add : F -> F -> F;
  s_sub : F -> F -> F;
  s_mul : F -> F -> F;
  s_div : F -> F -> F;
  s_neg : F -> F;
  s_sqrt : F -> F;
  s_abs : F -> F;
  s_le : F -> F -> bool;      (* a <= b *)
  s_lt : F -> F -> bool;      (* a < b *)
  s_sort_lt : F -> F -> bool  (* the order np.argsort sorts by *)
}.

Declare Scope scalar_scope.
Delimit Scope scalar_scope with S.
Infix "+" := s_add : scalar_scope.
Infix "-" := s_sub : scalar_scope.
Infix "*" := s_mul : scalar_scope.
Infix "/" := s_div : scalar_scope.
Notation "- x" := (s_neg x) : scalar_scope.
Infix "<=?" := s_le : scalar_scope.
Infix "<?" := s_lt : scalar_scope.

(** binary64.  numpy sorts NaN behind every number. *)
#[export] Instance float_scalar : Scalar float := {
  s_zero := 0%float;
  s_one := 1%float;
  s_tol := 1.001%float;
  s_add := PrimFloat.add;
  s_sub := PrimFloat.sub;
  s_mul := PrimFloat.mul;
  s_div := PrimFloat.div;
  s_neg := PrimFloat.opp;
  s_sqrt := PrimFloat.sqrt;
  s_abs := PrimFloat.abs;
  s_le := PrimFloat.leb;
  s_lt := PrimFloat.ltb;
  s_sort_lt := fun a b =>
    PrimFloat.ltb a b || (PrimFloat.is_nan b && negb (PrimFloat.is_nan a))
}.

Definition Rleb (a b : R) : bool := if Rle_dec a b then true else false.
Definition Rltb (a b : R) : bool := if Rlt_dec a b then true else false.

(** Exact arithmetic. *)
#[export] Instance R_scalar : Scalar R := {
  s_zero := 0%R;
  s_one := 1%R;
  s_tol := (1001 / 1000)%R;
  s_add := Rplus;
  s_sub := Rminus;
  s_mul := Rmult;
  s_div := Rdiv;
  s_neg := Ropp;
  s_sqrt := R_sqrt.sqrt;
  s_abs := Rabs;
  s_le := Rleb;
  s_lt := Rltb;
  s_sort_lt := Rltb
}.

(** ** Exceptions *)

Inductive exn :=
  | IndexError          (* an array or list subscript out of range *)
  | UnboundLocalError   (* a local read before assignment *)
  | UnconnectedVertex.  (* Exception("node not connected to triangles, check your mesh") *)

Inductive result (A : Type) :=
  | Return (a : A)
  | Raise (e : exn).
Arguments Return {A} a.
Arguments Raise {A} e.

Definition bind {A B} (r : result A) (k : A -> result B) : result B :=
  match r with
  | Return a => k a
  | Raise e => Raise e
  end.

Notation "'let*' p ':=' e 'in' k" := (bind e (fun p => k))
  (at level 10, p pattern, e at level 200, k at level 200, only parsing).

Fixpoint mapM {A B} (f : A -> result B) (l : list A) : result (list B) :=
  match l with
  | [] => Return []
  | a :: l' => let* b := f a in let* bs := mapM f l' in Return (b :: bs)
  end.

Fixpoint foldM {A S} (f : S -> A -> result S) (l : list A) (s : S) : result S :=
  match l with
  | [] => Return s
  | a :: l' => let* s' := f s a in foldM f l' s'
  end.

(** ** numpy and Python containers *)

(** [a[i]] for a non-negative Python int [i]. *)
Definition getitem {A} (a : list A) (i : nat) : result A :=
  match a !! i with
  | Some x => Return x
  | None => Raise IndexError
  end.

(** [a[k]] for an integer [k] read from an array: numpy counts a negative
    subscript from the end, and raises outside [-len(a), len(a)). *)
Definition np_getitem {A} (a : list A) (k : Z) : result A :=
  let n := Z.of_nat (length a) in
  if (0 <=? k)%Z && (k <? n)%Z then getitem a (Z.to_nat k)
  else if (- n <=? k)%Z && (k <? 0)%Z then getitem a (Z.to_nat (k + n))
  else Raise IndexError.

(** [d[k]] on a [collections.defaultdict(list)]: a missing key is inserted
    with a fresh empty list, which is what the subscript returns. *)
Definition dd_getitem (d : gmap Z (list nat)) (k : Z) : list nat * gmap Z (list nat) :=
  match d !! k with
  | Some l => (l, d)
  | None => ([], <[k := []]> d)
  end.

(** [d[k].append(i)] *)
Definition dd_append (d : gmap Z (list nat)) (k : Z) (i : nat) : gmap Z (list nat) :=
  let '(l, d') := dd_getitem d k in <[k := l ++ [i]]> d'.

Section Source.
Context {F : Type} {SF : Scalar F}.
Local Open Scope scalar_scope.

Definition vec : Type := F * F * F.

Definition vzero : vec := (s_zero, s_zero, s_zero).
Definition vadd (a b : vec) : vec :=
  let '(a0, a1, a2) := a in let '(b0, b1, b2) := b in (a0 + b0, a1 + b1, a2 + b2).
Definition vsub (a b : vec) : vec :=
  let '(a0, a1, a2) := a in let '(b0, b1, b2) := b in (a0 - b0, a1 - b1, a2 - b2).
Definition vneg (a : vec) : vec :=
  let '(a0, a1, a2) := a in (- a0, - a1, - a2).
(** array * scalar, scalar * array *)
Definition vscale (a : vec) (k : F) : vec :=
  let '(a0, a1, a2) := a in (a0 * k, a1 * k, a2 * k).
Definition scalev (k : F) (a : vec) : vec :=
  let '(a0, a1, a2) := a in (k * a0, k * a1, k * a2).
(** array / scalar *)
Definition vdiv (a : vec) (k : F) : vec :=
  let '(a0, a1, a2) := a in (a0 / k, a1 / k, a2 / k).

(** [np.dot], [np.cross], [np.linalg.norm] on 3-vectors *)
Definition dot (a b : vec) : F :=
  let '(a0, a1, a2) := a in let '(b0, b1, b2) := b in a0 * b0 + a1 * b1 + a2 * b2.
Definition cross (a b : vec) : vec :=
  let '(a0, a1, a2) := a in let '(b0, b1, b2) := b in
  (a1 * b2 - a2 * b1, a2 * b0 - a0 * b2, a0 * b1 - a1 * b0).
Definition norm (a : vec) : F := s_sqrt (dot a a).

(** [np.sum(rows, axis=0)] *)
Definition np_sum (rows : list vec) : vec :=
  match rows with
  | [] => vzero
  | r :: rows' => fold_left vadd rows' r
  end.

(** [keys.argsort()]: the indices of [keys] in ascending order of key.
    numpy's default sort is not stable: it fixes the result only up to the
    order of equal keys, which depends on the build of numpy.  [argsort]
    is one of the orders numpy may give, an insertion sort that leaves
    equal keys in index order; [project_body] below takes the sorting
    function as an argument, for statements that hold of every such
    order. *)
Fixpoint argsort_insert (keys : list F) (o : nat) (sorted : list nat) : list nat :=
  match sorted with
  | [] => [o]
  | h :: rest =>
      match keys !! o, keys !! h with
      | Some ko, Some kh =>
          if s_sort_lt ko kh then o :: h :: rest
          else h :: argsort_insert keys o rest
      | _, _ => h :: argsort_insert keys o rest
      end
  end.

Definition argsort (keys : list F) : list nat :=
  fold_left (fun sorted o => argsort_insert keys o sorted) (seq 0 (length keys)) [].

(** ** The spatial index *)

(** Modelled from the spec: [scipy.spatial.cKDTree] is an external library.
    Spec 4.2: [nearest] returns the single closest vertex in Euclidean
    distance, ties broken by index.  The index holds the points it was built
    from.  On an index without points, where the spec names no nearest
    vertex, the answer is the number of points, 0, which is how scipy
    reports a missing neighbour.  The distance, which [project_new_point]
    discards, is left out.  scipy's index reports a missing neighbour also
    when every squared distance overflows, and raises on a point with a
    coordinate that is not finite; neither is modelled here, and
    [project_body] below takes the answer of the index as an argument, for
    statements that hold of whatever it answers. *)
Definition sqdist (q p : vec) : F := let d := vsub q p in dot d d.

Fixpoint nearest_scan (p : vec) (pts : list vec) (idx best : nat) (bestd : F) : nat :=
  match pts with
  | [] => best
  | q :: pts' =>
      let d := sqdist q p in
      if d <? bestd then nearest_scan p pts' (S idx) idx d
      else nearest_scan p pts' (S idx) best bestd
  end.

Definition tree_query (pts : list vec) (p : vec) : Z :=
  match pts with
  | [] => 0%Z
  | q :: pts' => Z.of_nat (nearest_scan p pts' 1 0 (sqdist q p))
  end.

(** ** class Mesh *)

Record Mesh := mkMesh {
  verts : list vec;
  connectivity : list (Z * Z * Z);
  normals : list vec;
  node_to_tri : gmap Z (list nat);
  tree : list vec
}.

(** The body of the loop [for i in range(len(self.connectivity))] of
    [__init__], on the two attributes it updates. *)
Definition init_step (verts_ : list vec) (connectivity_ : list (Z * Z * Z))
    (st : list vec * gmap Z (list nat)) (i : nat) : result (list vec * gmap Z (list nat)) :=
  let '(normals_, ntt) := st in
  let* (c0, c1, c2) := getitem connectivity_ i in
  let ntt := dd_append (dd_append (dd_append ntt c0 i) c1 i) c2 i in
  let* p1 := np_getitem verts_ c1 in
  let* p0 := np_getitem verts_ c0 in
  let u := vsub p1 p0 in
  let* p2 := np_getitem verts_ c2 in
  let* p0' := np_getitem verts_ c0 in
  let v := vsub p2 p0' in
  let n := cross u v in
  Return (<[i := vdiv n (norm n)]> normals_, ntt).

(** [Mesh.__init__], from the arrays [msh.points] and [msh.cells[0].data]
    the mesh reader hands over. *)
Definition Mesh_init (verts_ : list vec) (connectivity_ : list (Z * Z * Z)) : result Mesh :=
  let m := length connectivity_ in
  let* (normals_, ntt) := foldM (init_step verts_ connectivity_) (seq 0 m)
                            (replicate m vzero, ∅) in
  Return (mkMesh verts_ connectivity_ normals_ ntt verts_).

(** The three vertex positions of triangle [i]:
    [self.verts[self.connectivity[i, j], :]] for j = 0, 1, 2. *)
Definition corners (self : Mesh) (i : nat) : result (vec * vec * vec) :=
  let* (c0, c1, c2) := getitem (connectivity self) i in
  let* p0 := np_getitem (verts self) c0 in
  let* p1 := np_getitem (verts self) c1 in
  let* p2 := np_getitem (verts self) c2 in
  Return (p0, p1, p2).

(** The acceptance test of the loop body (lines 131-141), on the edge
    vectors [u], [v] and the offset [w] of the projected point. *)
Definition in_triangle (u v w : vec) : bool :=
  let vxw := cross v w in
  let vxu := cross v u in
  let uxw := cross u w in
  let sign_r := dot vxw vxu in
  let sign_t := dot uxw (vneg vxu) in
  if (s_zero <=? sign_r) && (s_zero <=? sign_t) then
    let r := norm vxw / norm vxu in
    let t := norm uxw / norm vxu in
    (r <=? s_one) && (t <=? s_one) && (r + t <=? s_tol)
  else false.

(** One pass of [for o in order]: the candidate triangle [i], its
    [projected_point], and whether the test accepts it. *)
Definition candidate (self : Mesh) (pre_projected_point : vec)
    (triangles : list nat) (CPP : list F) (o : nat) : result (nat * vec * bool) :=
  let* i := getitem triangles o in
  let* d := getitem CPP o in
  let* n := getitem (normals self) i in
  let projected_point := vsub pre_projected_point (scalev d n) in
  let* (p0, p1, p2) := corners self i in
  let u := vsub p1 p0 in
  let v := vsub p2 p0 in
  let w := vsub projected_point p0 in
  Return (i, projected_point, in_triangle u v w).

(** The loop [for o in order] with its [break]; [projected_point] is the
    local as left by the passes already made, [None] while unassigned. *)
Fixpoint search (self : Mesh) (pre_projected_point : vec) (triangles : list nat)
    (CPP : list F) (order : list nat) (projected_point : option vec) : result (vec * Z) :=
  match order with
  | [] =>
      match projected_point with
      | Some q => Return (q, (-1)%Z)
      | None => Raise UnboundLocalError
      end
  | o :: order' =>
      let* (i, q, inside) := candidate self pre_projected_point triangles CPP o in
      if inside then Return (q, Z.of_nat i)
      else search self pre_projected_point triangles CPP order' (Some q)
  end.

(** Lines 93-99: the pre-projection onto the plane of the vertex normal. *)
Definition pre_project (self : Mesh) (node : Z) (triangles : list nat) (point : vec) : result vec :=
  let* rows := mapM (getitem (normals self)) triangles in
  let vertex_normal := np_sum rows in
  let vertex_normal := vdiv vertex_normal (norm vertex_normal) in
  let* pv := np_getitem (verts self) node in
  Return (vsub point (vscale vertex_normal (dot (vsub point pv) vertex_normal))).

(** Lines 101-109: the signed plane distances. *)
Definition plane_distances (self : Mesh) (pre_projected_point : vec)
    (triangles : list nat) : result (list F) :=
  mapM (fun tri =>
          let* (c0, _, _) := getitem (connectivity self) tri in
          let* p0 := np_getitem (verts self) c0 in
          let* n := getitem (normals self) tri in
          Return (dot (vsub pre_projected_point p0) n)) triangles.

(** [Mesh.project_new_point].  The mesh comes back with the call's result:
    the subscript on [node_to_tri] may write to it. *)
Definition project_new_point (self : Mesh) (point : vec) : Mesh * result (vec * Z) :=
  let node := tree_query (tree self) point in
  let '(triangles, ntt) := dd_getitem (node_to_tri self) node in
  let self := mkMesh (verts self) (connectivity self) (normals self) ntt (tree self) in
  (self,
   if Nat.eqb (length triangles) 0 then Raise UnconnectedVertex
   else
     let* pre_projected_point := pre_project self node triangles point in
     let* CPP := plane_distances self pre_projected_point triangles in
     let order := argsort (map s_abs CPP) in
     search self pre_projected_point triangles CPP order None).

(** Lines 88-145 of [project_new_point]: the call from the [node] that the
    query of line 85 has answered, with [sort] for [np.argsort].
    [project_new_point self point] is
    [project_body argsort self (tree_query (tree self) point) point]. *)
Definition project_body (sort : list F -> list nat) (self : Mesh) (node : Z) (point : vec)
    : Mesh * result (vec * Z) :=
  let '(triangles, ntt) := dd_getitem (node_to_tri self) node in
  let self := mkMesh (verts self) (connectivity self) (normals self) ntt (tree self) in
  (self,
   if Nat.eqb (length triangles) 0 then Raise UnconnectedVertex
   else
     let* pre_projected_point := pre_project self node triangles point in
     let* CPP := plane_distances self pre_projected_point triangles in
     let order := sort (map s_abs CPP) in
     search self pre_projected_point triangles CPP order None).

End Source.

Arguments vec F : clear implicits.
Arguments Mesh F : clear implicits.

(** * Vocabulary of the statements *)

(** The position numpy reads for the subscript [k] of an array of length [n]. *)
Definition np_pos (n : nat) (k : Z) : option nat :=
  if (0 <=? k)%Z && (k <? Z.of_nat n)%Z then Some (Z.to_nat k)
  else if (- Z.of_nat n <=? k)%Z && (k <? 0)%Z then Some (Z.to_nat (k + Z.of_nat n))
  else None.

(** What one subscript-and-append of triangle [i] under key [c] leaves in
    the list of vertex [v]. *)
Definition hits (i : nat) (c v : Z) : list nat := if decide (c = v) then [i] else [].

(** The triangles of [conn], numbered from [i], that name the vertex [v],
    once per mention. *)
Fixpoint incident (i : nat) (conn : list (Z * Z * Z)) (v : Z) : list nat :=
  match conn with
  | [] => []
  | (c0, c1, c2) :: conn' =>
      hits i c0 v ++ hits i c1 v ++ hits i c2 v ++ incident (S i) conn' v
  end.

(** [node_to_tri[v]] read without writing: a missing key reads as []. *)
Definition adjacency (d : gmap Z (list nat)) (v : Z) : list nat := default [] (d !! v).

Section Vocabulary.
Context {F : Type} {SF : Scalar F}.

(** The normal the constructor stores for a triangle with corners
    [p0], [p1], [p2] (lines 56-65). *)
Definition unit_normal (p0 p1 p2 : vec F) : vec F :=
  let n := cross (vsub p1 p0) (vsub p2 p0) in vdiv n (norm n).

Definition triangle_ok (vs : list (vec F)) (cs : list (Z * Z * Z))
    (nl : list (vec F)) (i : nat) : Prop :=
  exists c0 c1 c2 p0 p1 p2,
    cs !! i = Some (c0, c1, c2) /\
    np_getitem vs c0 = Return p0 /\ np_getitem vs c1 = Return p1 /\
    np_getitem vs c2 = Return p2 /\
    nl !! i = Some (unit_normal p0 p1 p2).

(** The state of a mesh object between calls. *)
Record well_formed (m : Mesh F) : Prop := {
  wf_tree : tree m = verts m;
  wf_normals : length (normals m) = length (connectivity m);
  wf_adjacency : forall v, adjacency (node_to_tri m) v = incident 0 (connectivity m) v;
  wf_triangles : forall i, i < length (connectivity m) ->
                   triangle_ok (verts m) (connectivity m) (normals m) i
}.

Definition init_inv (vs : list (vec F)) (cs : list (Z * Z * Z)) (k : nat)
    (st : list (vec F) * gmap Z (list nat)) : Prop :=
  length (fst st) = length cs /\
  (forall v, adjacency (snd st) v = incident 0 (take k cs) v) /\
  (forall v, snd st !! v <> Some []) /\
  (forall i, i < k -> triangle_ok vs cs (fst st) i).

(** The subscripts the constructor can read without an [IndexError]. *)
Definition indices_valid (vs : list (vec F)) (cs : list (Z * Z * Z)) : Prop :=
  forall i c0 c1 c2, cs !! i = Some (c0, c1, c2) ->
    is_Some (np_pos (length vs) c0) /\ is_Some (np_pos (length vs) c1) /\
    is_Some (np_pos (length vs) c2).

(** The mesh object after the subscript [self.node_to_tri[node]]. *)
Definition touched (m : Mesh F) (node : Z) : Mesh F :=
  mkMesh (verts m) (connectivity m) (normals m)
         (snd (dd_getitem (node_to_tri m) node)) (tree m).

(** Index [o1] may stand before index [o2] in the sorted order: the key
    of [o2] is not below the key of [o1]. *)
Definition key_le (keys : list F) (o1 o2 : nat) : Prop :=
  forall d1 d2, keys !! o1 = Some d1 -> keys !! o2 = Some d2 -> s_sort_lt d2 d1 = false.

(** What numpy promises of [argsort]: every index of the keys once, the
    keys in ascending order; the order of equal keys is left open. *)
Definition is_argsort (sort : list F -> list nat) : Prop :=
  forall keys, sort keys ≡ₚ seq 0 (length keys) /\ StronglySorted (key_le keys) (sort keys).

(** [pre] is the pre-projection of [p]: [p] moved along the normalised sum
    of the normals of the triangles [T] onto the plane through the vertex
    [node] (lines 93-99). *)
Definition is_pre_projection (m : Mesh F) (node : Z) (T : list nat) (p pre : vec F) : Prop :=
  exists rows pv,
    mapM (getitem (normals m)) T = Return rows /\ np_getitem (verts m) node = Return pv /\
    let vertex_normal := vdiv (np_sum rows) (norm (np_sum rows)) in
    pre = vsub p (vscale vertex_normal (dot (vsub p pv) vertex_normal)).

(** [ds] holds d_t = (pre - p_a) . normal(t) for the triangles [t] of [T],
    p_a the first corner of [t] (lines 101-109). *)
Definition is_plane_distances (m : Mesh F) (T : list nat) (pre : vec F) (ds : list F) : Prop :=
  length ds = length T /\
  forall o t, T !! o = Some t ->
    exists p0 p1 p2 n,
      corners m t = Return (p0, p1, p2) /\ normals m !! t = Some n /\
      ds !! o = Some (dot (vsub pre p0) n).

(** The point [q] passes the test of lines 131-141 on triangle [t]:
    sign_r >= 0, sign_t >= 0, r <= 1, t <= 1 and r + t <= 1.001. *)
Definition passes (m : Mesh F) (t : nat) (q : vec F) : Prop :=
  exists p0 p1 p2,
    corners m t = Return (p0, p1, p2) /\
    let u := vsub p1 p0 in
    let v := vsub p2 p0 in
    let w := vsub q p0 in
    let vxw := cross v w in
    let vxu := cross v u in
    let uxw := cross u w in
    let r := s_div (norm vxw) (norm vxu) in
    let t_param := s_div (norm uxw) (norm vxu) in
    s_le s_zero (dot vxw vxu) = true /\ s_le s_zero (dot uxw (vneg vxu)) = true /\
    s_le r s_one = true /\ s_le t_param s_one = true /\
    s_le (s_add r t_param) s_tol = true.

(** The candidate at index [o] of the candidate list is triangle [t], its
    point pre - d_t normal(t) is [q], and [q] passes the test on [t]. *)
Definition accepted_at (m : Mesh F) (T : list nat) (pre : vec F) (ds : list F)
    (o t : nat) (q : vec F) : Prop :=
  exists d n,
    T !! o = Some t /\ ds !! o = Some d /\ normals m !! t = Some n /\
    q = vsub pre (scalev d n) /\ passes m t q.

(** The candidate at index [o] is a triangle whose point pre - d_t normal(t)
    fails the test. *)
Definition rejected_at (m : Mesh F) (T : list nat) (pre : vec F) (ds : list F)
    (o : nat) : Prop :=
  exists t d n,
    T !! o = Some t /\ ds !! o = Some d /\ normals m !! t = Some n /\
    ~ passes m t (vsub pre (scalev d n)).

End Vocabulary.

(** The order argsort sorts by is a strict order. *)
Class SortOrder (F : Type) {SF : Scalar F} : Prop := {
  sort_lt_trans : forall a b c : F,
    s_sort_lt a b = true -> s_sort_lt b c = true -> s_sort_lt a c = true;
  sort_lt_asym : forall a b : F, s_sort_lt a b = true -> s_sort_lt b a = false
}.

(** A float that is zero, of either sign. *)
Definition is_zero (x : float) : Prop := x = 0%float \/ x = (-0)%float.

(** The subscripts numpy accepts on an array of length [n]. *)
Definition in_range (n : nat) (c : Z) : Prop := (- Z.of_nat n <= c < Z.of_nat n)%Z.

Definition all_in_range (n : nat) (cs : list (Z * Z * Z)) : Prop :=
  forall t c0 c1 c2, cs !! t = Some (c0, c1, c2) ->
    in_range n c0 /\ in_range n c1 /\ in_range n c2.

(** ** Meshes used as examples *)

(** The planar quad of the spec's scenario (8.7), in binary64. *)
Definition quad_verts : list (vec float) := [(0, 0, 0); (1, 0, 0); (1, 1, 0); (0, 1, 0)]%float.
Definition quad_conn : list (Z * Z * Z) := [(0, 1, 2); (0, 2, 3)]%Z.
Definition quad_mesh : Mesh float :=
  mkMesh quad_verts quad_conn [(0, 0, 1); (0, 0, 1)]%float
    (list_to_map [(0%Z, [0; 1]); (1%Z, [0]); (2%Z, [0; 1]); (3%Z, [1])]) quad_verts.

(** Three collinear vertices. *)
Definition flat_verts : list (vec float) := [(0, 0, 0); (1, 0, 0); (2, 0, 0)]%float.
Definition flat_conn : list (Z * Z * Z) := [(0, 1, 2)]%Z.

(** A triangle and a fourth vertex no triangle names. *)
Definition stray_verts : list (vec float) := [(0, 0, 0); (1, 0, 0); (0, 1, 0); (3, 3, 3)]%float.
Definition stray_conn : list (Z * Z * Z) := [(0, 1, 2)]%Z.
Definition stray_mesh : Mesh float :=
  mkMesh stray_verts stray_conn [(0, 0, 1)]%float
    (list_to_map [(0%Z, [0]); (1%Z, [0]); (2%Z, [0])]) stray_verts.


(** Two triangles on the edge from (0,0,0) to (0,1,0) whose normals
    (1, 0, 0) and (-1, 0, -1e-170) all but cancel, in binary64. *)
Definition uf_verts : list (vec float) :=
  [(0, 0, 0); (0, 1, 0); (0, 0, 1); (1e-170, 0, -1)]%float.
Definition uf_conn : list (Z * Z * Z) := [(0, 1, 2); (0, 1, 3)]%Z.

(** The three faces of a cube corner at the origin, in binary64, and a
    query point whose pre-projection and plane distances are
    [corner_pre] and [corner_ds]. *)
Definition corner_verts : list (vec float) :=
  [(0, 0, 0); (1, 0, 0); (0, 1, 0); (0, 0, 1)]%float.
Definition corner_conn : list (Z * Z * Z) := [(0, 1, 2); (0, 2, 3); (0, 3, 1)]%Z.
Definition corner_mesh : Mesh float :=
  mkMesh corner_verts corner_conn [(0, 0, 1); (1, 0, 0); (0, 1, 0)]%float
    (list_to_map [(0%Z, [0; 1; 2]); (1%Z, [0; 2]); (2%Z, [0; 1]); (3%Z, [1; 2])])
    corner_verts.
Definition corner_point : vec float := (-0.2, 0.3, 0.2)%float.
Definition corner_pre : vec float :=
  (-0.30000000000000004, 0.19999999999999996, 0.099999999999999978)%float.
Definition corner_ds : list float :=
  [0.099999999999999978; -0.30000000000000004; 0.19999999999999996]%float.

(** A right triangle over the reals. *)
Definition tri_verts : list (vec R) := [(0, 0, 0); (1, 0, 0); (0, 1, 0)]%R.
Definition tri_conn : list (Z * Z * Z) := [(0, 1, 2)]%Z.
Definition tri_mesh : Mesh R :=
  mkMesh tri_verts tri_conn [unit_normal (0, 0, 0)%R (1, 0, 0)%R (0, 1, 0)%R]
    (list_to_map [(0%Z, [0]); (1%Z, [0]); (2%Z, [0])]) tri_verts.

(** The same triangle in both windings. *)
Definition flip_conn : list (Z * Z * Z) := [(0, 1, 2); (0, 2, 1)]%Z.
Definition flip_mesh : Mesh R :=
  mkMesh tri_verts flip_conn
    [unit_normal (0, 0, 0)%R (1, 0, 0)%R (0, 1, 0)%R;
     unit_normal (0, 0, 0)%R (0, 1, 0)%R (1, 0, 0)%R]
    (list_to_map [(0%Z, [0; 1]); (1%Z, [0; 1]); (2%Z, [0; 1])]) tri_verts.

(** A triangle that names its last vertex by the subscript -1. *)
Definition wrap_verts : list (vec float) := [(0, 0, 0); (1, 0, 0); (0, 1, 0)]%float.
Definition wrap_conn : list (Z * Z * Z) := [(0, 1, -1)]%Z.
Definition wrap_mesh : Mesh float :=
  mkMesh wrap_verts wrap_conn [(0, 0, 1)]%float
    (list_to_map [(0%Z, [0]); (1%Z, [0]); ((-1)%Z, [0])]) wrap_verts.

(** The collinear vertices as a mesh, and a triangle that names vertex 0 twice. *)
Definition flat_mesh : Mesh float :=
  mkMesh flat_verts flat_conn [(nan, nan, nan)]
    (list_to_map [(0%Z, [0]); (1%Z, [0]); (2%Z, [0])]) flat_verts.
Definition pinch_conn : list (Z * Z * Z) := [(0, 0, 1)]%Z.
Definition pinch_mesh : Mesh float :=
  mkMesh flat_verts pinch_conn [(nan, nan, nan)]
    (list_to_map [(0%Z, [0; 0]); (1%Z, [0])]) flat_verts.

(** The first triangle of the quad alone. *)
Definition half_conn : list (Z * Z * Z) := [(0, 1, 2)]%Z.
Definition half_mesh : Mesh float :=
  mkMesh quad_verts half_conn [(0, 0, 1)]%float
    (list_to_map [(0%Z, [0]); (1%Z, [0]); (2%Z, [0])]) quad_verts.

(** * Lemmas *)

(** ** Monad and container lemmas *)

Lemma bind_Return {A B} (r : result A) (k : A -> result B) (b : B) :
  bind r k = Return b -> exists a, r = Return a /\ k a = Return b.
Proof. destruct r as [a|e]; simpl; [eauto | discriminate]. Qed.

Lemma bind_Raise {A B} (r : result A) (k : A -> result B) (e : exn) :
  bind r k = Raise e -> r = Raise e \/ exists a, r = Return a /\ k a = Raise e.
Proof. destruct r as [a|e']; simpl; [eauto | intros [= ->]; auto]. Qed.

Lemma getitem_Return {A} (a : list A) (i : nat) (x : A) :
  getitem a i = Return x <-> a !! i = Some x.
Proof. unfold getitem. destruct (a !! i); split; congruence. Qed.

Lemma getitem_Raise {A} (a : list A) (i : nat) (e : exn) :
  getitem a i = Raise e -> a !! i = None /\ e = IndexError.
Proof. unfold getitem. destruct (a !! i); [discriminate | intros [= <-]; auto]. Qed.

Lemma np_getitem_Return {A} (a : list A) (k : Z) (x : A) :
  np_getitem a k = Return x <-> exists i, np_pos (length a) k = Some i /\ a !! i = Some x.
Proof.
  unfold np_getitem, np_pos.
  destruct ((0 <=? k)%Z && (k <? Z.of_nat (length a))%Z);
    [| destruct ((- Z.of_nat (length a) <=? k)%Z && (k <? 0)%Z)];
    rewrite ?getitem_Return; split; try discriminate.
  - eauto.
  - by intros (i & [= <-] & Hi).
  - eauto.
  - by intros (i & [= <-] & Hi).
  - by intros (i & [=] & _).
Qed.

Lemma np_getitem_Raise {A} (a : list A) (k : Z) (e : exn) :
  np_getitem a k = Raise e -> e = IndexError.
Proof.
  unfold np_getitem.
  repeat case_match; try (intros [= <-]; done); intros Hg; apply getitem_Raise in Hg; tauto.
Qed.

Lemma np_getitem_nonneg {A} (a : list A) (i : nat) :
  np_getitem a (Z.of_nat i) = getitem a i.
Proof.
  unfold np_getitem.
  destruct (decide (i < length a)) as [Hi|Hi].
  - replace ((0 <=? Z.of_nat i)%Z && (Z.of_nat i <? Z.of_nat (length a))%Z) with true.
    + by rewrite Nat2Z.id.
    + symmetry. apply andb_true_iff. split; [apply Z.leb_le | apply Z.ltb_lt]; lia.
  - replace ((0 <=? Z.of_nat i)%Z && (Z.of_nat i <? Z.of_nat (length a))%Z) with false.
    + replace ((- Z.of_nat (length a) <=? Z.of_nat i)%Z && (Z.of_nat i <? 0)%Z) with false.
      * unfold getitem. rewrite lookup_ge_None_2; [done | lia].
      * symmetry. apply andb_false_iff. right. apply Z.ltb_ge. lia.
    + symmetry. apply andb_false_iff. right. apply Z.ltb_ge. lia.
Qed.

Lemma mapM_Return {A B} (f : A -> result B) (l : list A) (bs : list B) :
  mapM f l = Return bs ->
  length bs = length l /\
  forall i a, l !! i = Some a -> exists b, bs !! i = Some b /\ f a = Return b.
Proof.
  revert bs. induction l as [|a l IH]; simpl; intros bs H.
  - injection H as <-. split; [done | intros i a' Hi; by destruct i].
  - apply bind_Return in H as (b & Hb & H).
    apply bind_Return in H as (bs' & Hbs & [= <-]).
    destruct (IH _ Hbs) as [Hlen Hall]. split; [simpl; by rewrite Hlen |].
    intros [|i] a' Hi; simpl in *.
    + injection Hi as <-. eauto.
    + eauto.
Qed.

Lemma mapM_total {A B} (f : A -> result B) (l : list A) :
  (forall a, a ∈ l -> exists b, f a = Return b) -> exists bs, mapM f l = Return bs.
Proof.
  induction l as [|a l IH]; simpl; intros H; [eauto |].
  destruct (H a) as [b Hb]; [left |].
  destruct IH as [bs Hbs]; [intros a' Ha'; apply H; by right |].
  rewrite Hb, Hbs. simpl. eauto.
Qed.

Lemma foldM_seq_inv {S} (f : S -> nat -> result S) (P : nat -> S -> Prop) :
  forall n k s s',
    P k s ->
    (forall i t t', k <= i < k + n -> P i t -> f t i = Return t' -> P (Datatypes.S i) t') ->
    foldM f (seq k n) s = Return s' ->
    P (k + n) s'.
Proof.
  induction n as [|n IH]; simpl; intros k s s' HP Hstep H.
  - injection H as <-. by rewrite Nat.add_0_r.
  - apply bind_Return in H as (t & Ht & H).
    replace (k + Datatypes.S n) with (Datatypes.S k + n) by lia.
    apply (IH (Datatypes.S k) t s'); [| | done].
    + apply (Hstep k s t); [lia | done | done].
    + intros i u u' Hi. apply Hstep. lia.
Qed.

Lemma foldM_seq_total {S} (f : S -> nat -> result S) (P : nat -> S -> Prop) :
  forall n k s,
    P k s ->
    (forall i t, k <= i < k + n -> P i t -> exists t', f t i = Return t' /\ P (Datatypes.S i) t') ->
    exists s', foldM f (seq k n) s = Return s'.
Proof.
  induction n as [|n IH]; simpl; intros k s HP Hstep; [eauto |].
  destruct (Hstep k s) as (t & Ht & HPt); [lia | done |].
  rewrite Ht. simpl. apply (IH (Datatypes.S k) t); [done |].
  intros i u Hi. apply Hstep. lia.
Qed.

Lemma foldM_Raise {A S} (f : S -> A -> result S) (P : exn -> Prop) (l : list A) :
  (forall s a e, f s a = Raise e -> P e) ->
  forall s e, foldM f l s = Raise e -> P e.
Proof.
  intros Hf. induction l as [|a l IH]; simpl; intros s e H; [discriminate |].
  apply bind_Raise in H as [H|(s' & _ & H)]; eauto.
Qed.


(** ** Inverting the connectivity *)

Lemma adjacency_dd_getitem (d : gmap Z (list nat)) (k v : Z) :
  adjacency (snd (dd_getitem d k)) v = adjacency d v /\ fst (dd_getitem d k) = adjacency d k.
Proof.
  unfold dd_getitem, adjacency. destruct (d !! k) as [l|] eqn:Hk; simpl; [done |].
  split; [| done]. destruct (decide (k = v)) as [->|Hne].
  - by rewrite lookup_insert_eq, Hk.
  - by rewrite lookup_insert_ne.
Qed.

Lemma adjacency_dd_append (d : gmap Z (list nat)) (k : Z) (i : nat) (v : Z) :
  adjacency (dd_append d k i) v = adjacency d v ++ hits i k v.
Proof.
  unfold dd_append, dd_getitem, adjacency, hits.
  destruct (d !! k) as [l|] eqn:Hk; destruct (decide (k = v)) as [->|Hne];
    rewrite ?lookup_insert_eq, ?lookup_insert_ne, ?Hk, ?app_nil_r by done; done.
Qed.

Lemma dd_append_nonempty (d : gmap Z (list nat)) (k : Z) (i : nat) :
  (forall v, d !! v <> Some []) -> forall v, dd_append d k i !! v <> Some [].
Proof.
  intros Hd v. unfold dd_append, dd_getitem.
  destruct (d !! k) as [l|] eqn:Hk; destruct (decide (k = v)) as [->|Hne];
    rewrite ?lookup_insert_eq, ?lookup_insert_ne by done; try apply Hd.
  - intros [= H]. by destruct l.
  - intros [= H].
Qed.

Lemma incident_snoc (i : nat) (conn : list (Z * Z * Z)) (c0 c1 c2 v : Z) :
  incident i (conn ++ [(c0, c1, c2)]) v =
  incident i conn v ++ hits (i + length conn) c0 v
    ++ hits (i + length conn) c1 v ++ hits (i + length conn) c2 v.
Proof.
  revert i. induction conn as [|[[a b] c] conn IH]; intros i; simpl.
  - by rewrite Nat.add_0_r, !app_nil_r.
  - rewrite IH. replace (S i + length conn) with (i + S (length conn)) by lia.
    by rewrite <- !app_assoc.
Qed.

Lemma elem_of_hits (t i : nat) (c v : Z) : t ∈ hits i c v <-> t = i /\ c = v.
Proof.
  unfold hits. destruct (decide (c = v)).
  - rewrite list_elem_of_singleton. tauto.
  - split; [by intros ?%not_elem_of_nil | tauto].
Qed.

Lemma elem_of_incident (i : nat) (conn : list (Z * Z * Z)) (v : Z) (t : nat) :
  t ∈ incident i conn v <->
  exists c0 c1 c2, i <= t /\ conn !! (t - i) = Some (c0, c1, c2) /\ (c0 = v \/ c1 = v \/ c2 = v).
Proof.
  revert i. induction conn as [|[[a b] c] conn IH]; intros i; simpl.
  - split; [by intros ?%not_elem_of_nil | by intros (? & ? & ? & _ & ? & _)].
  - rewrite !elem_of_app, !elem_of_hits, IH. split.
    + intros [[-> ->]|[[-> ->]|[[-> ->]|(c0 & c1 & c2 & Hle & Hl & Hv)]]].
      * exists v, b, c. rewrite Nat.sub_diag. auto.
      * exists a, v, c. rewrite Nat.sub_diag. auto.
      * exists a, b, v. rewrite Nat.sub_diag. auto 6.
      * exists c0, c1, c2. split; [lia |]. split; [| done].
        replace (t - i) with (S (t - S i)) by lia. done.
    + intros (c0 & c1 & c2 & Hle & Hl & Hv).
      destruct (decide (t = i)) as [->|Hne].
      * rewrite Nat.sub_diag in Hl. simpl in Hl. injection Hl as -> -> ->.
        destruct Hv as [->| [->| ->]]; auto.
      * right; right; right. exists c0, c1, c2. split; [lia |]. split; [| done].
        replace (t - i) with (S (t - S i)) in Hl by lia. done.
Qed.

Lemma incident_ge (i : nat) (conn : list (Z * Z * Z)) (v : Z) :
  Forall (fun t => i <= t) (incident i conn v).
Proof.
  apply Forall_forall. intros t Ht.
  apply elem_of_incident in Ht as (? & ? & ? & ? & _). done.
Qed.

Lemma hits_sorted_le (i : nat) (c0 c1 c2 v : Z) :
  StronglySorted le (hits i c0 v ++ hits i c1 v ++ hits i c2 v)
  /\ Forall (fun t => t = i) (hits i c0 v ++ hits i c1 v ++ hits i c2 v).
Proof.
  unfold hits. repeat case_decide; simpl; split; repeat constructor.
Qed.

Lemma incident_sorted_le (i : nat) (conn : list (Z * Z * Z)) (v : Z) :
  StronglySorted le (incident i conn v).
Proof.
  revert i. induction conn as [|[[a b] c] conn IH]; intros i; simpl; [constructor |].
  destruct (hits_sorted_le i a b c v) as [Hs Hall].
  rewrite !app_assoc, <- (app_assoc (hits i a v)).
  apply StronglySorted_app_2; [| done | apply IH].
  intros x1 x2 H1 H2.
  rewrite Forall_forall in Hall. apply Hall in H1 as ->.
  pose proof (incident_ge (S i) conn v) as Hge.
  rewrite Forall_forall in Hge. apply Hge in H2. lia.
Qed.

Lemma incident_sorted_lt (i : nat) (conn : list (Z * Z * Z)) (v : Z) :
  (forall t c0 c1 c2, conn !! t = Some (c0, c1, c2) -> c0 <> c1 /\ c0 <> c2 /\ c1 <> c2) ->
  StronglySorted lt (incident i conn v).
Proof.
  revert i. induction conn as [|[[a b] c] conn IH]; intros i Hd; simpl; [constructor |].
  destruct (Hd 0 a b c eq_refl) as (Hab & Hac & Hbc).
  assert (Hhead : StronglySorted lt (hits i a v ++ hits i b v ++ hits i c v)).
  { unfold hits. repeat case_decide; simpl; subst; try congruence; repeat constructor. }
  destruct (hits_sorted_le i a b c v) as [_ Hall].
  rewrite !app_assoc, <- (app_assoc (hits i a v)).
  apply StronglySorted_app_2; [| done |].
  - intros x1 x2 H1 H2.
    rewrite Forall_forall in Hall. apply Hall in H1 as ->.
    pose proof (incident_ge (S i) conn v) as Hge.
    rewrite Forall_forall in Hge. apply Hge in H2. lia.
  - apply IH. intros t c0 c1 c2 Ht. apply (Hd (S t)). done.
Qed.

Lemma StronglySorted_lt_NoDup (l : list nat) : StronglySorted lt l -> NoDup l.
Proof.
  induction 1 as [|x l Hs IH Hall]; constructor; [| done].
  intros Hin. rewrite Forall_forall in Hall. apply Hall in Hin. lia.
Qed.

(** ** What the constructor establishes *)

Section Construction.
Context {F : Type} {SF : Scalar F}.

Lemma init_step_spec vs cs nl d i nl' d' :
  init_step vs cs (nl, d) i = Return (nl', d') ->
  exists c0 c1 c2 p0 p1 p2,
    cs !! i = Some (c0, c1, c2) /\
    np_getitem vs c0 = Return p0 /\ np_getitem vs c1 = Return p1 /\
    np_getitem vs c2 = Return p2 /\
    nl' = <[i := unit_normal p0 p1 p2]> nl /\
    d' = dd_append (dd_append (dd_append d c0 i) c1 i) c2 i.
Proof.
  unfold init_step. intros H.
  apply bind_Return in H as ([[c0 c1] c2] & Hc & H).
  apply bind_Return in H as (p1 & H1 & H).
  apply bind_Return in H as (p0 & H0 & H).
  apply bind_Return in H as (p2 & H2 & H).
  apply bind_Return in H as (p0' & H0' & H).
  assert (p0' = p0) as -> by congruence.
  injection H as <- <-.
  exists c0, c1, c2, p0, p1, p2. apply getitem_Return in Hc. auto 10.
Qed.

Lemma init_inv_start vs cs : init_inv vs cs 0 (replicate (length cs) vzero, ∅).
Proof.
  split; [| split; [| split]]; simpl.
  - apply length_replicate.
  - done.
  - intros v. by rewrite lookup_empty.
  - intros i Hi. lia.
Qed.

Lemma init_inv_step vs cs i st st' :
  i < length cs -> init_inv vs cs i st -> init_step vs cs st i = Return st' ->
  init_inv vs cs (S i) st'.
Proof.
  destruct st as [nl d], st' as [nl' d'].
  intros Hi (Hlen & Hadj & Hne & Htri) Hstep. simpl in *.
  apply init_step_spec in Hstep
    as (c0 & c1 & c2 & p0 & p1 & p2 & Hc & H0 & H1 & H2 & -> & ->).
  split; [| split; [| split]]; simpl.
  - by rewrite length_insert.
  - intros v. rewrite !adjacency_dd_append, Hadj.
    rewrite (take_S_r cs i _ Hc), incident_snoc, length_take_le by lia.
    by rewrite <- !app_assoc.
  - by do 3 apply dd_append_nonempty.
  - intros j Hj. destruct (decide (j = i)) as [->|Hji].
    + exists c0, c1, c2, p0, p1, p2. repeat split; try done.
      apply list_lookup_insert_eq. lia.
    + destruct (Htri j) as (a0 & a1 & a2 & q0 & q1 & q2 & ? & ? & ? & ? & ?); [lia |].
      exists a0, a1, a2, q0, q1, q2. repeat split; try done.
      by rewrite list_lookup_insert_ne.
Qed.

Lemma Mesh_init_spec vs cs m :
  Mesh_init vs cs = Return m ->
  verts m = vs /\ connectivity m = cs /\ well_formed m /\
  (forall v, node_to_tri m !! v <> Some []).
Proof.
  unfold Mesh_init. intros H.
  apply bind_Return in H as ([nl d] & Hfold & [= <-]).
  apply (foldM_seq_inv _ (init_inv vs cs)) in Hfold.
  - destruct Hfold as (Hlen & Hadj & Hne & Htri). simpl in *.
    rewrite take_ge in Hadj by lia.
    repeat split; simpl; auto.
  - apply init_inv_start.
  - intros i t t' Hi. apply init_inv_step. lia.
Qed.

Lemma np_getitem_valid (vs : list (vec F)) (c : Z) :
  is_Some (np_pos (length vs) c) -> exists p, np_getitem vs c = Return p.
Proof.
  intros [i Hi].
  assert (i < length vs) as Hlt.
  { unfold np_pos in Hi. repeat case_match; try discriminate; injection Hi as <-;
      repeat match goal with
             | H : _ && _ = true |- _ => apply andb_true_iff in H as [? ?]
             | H : (_ <=? _)%Z = true |- _ => apply Z.leb_le in H
             | H : (_ <? _)%Z = true |- _ => apply Z.ltb_lt in H
             end; lia. }
  destruct (lookup_lt_is_Some_2 vs i Hlt) as [p Hp].
  exists p. apply np_getitem_Return. eauto.
Qed.

Lemma Mesh_init_total vs cs :
  indices_valid vs cs -> exists m, Mesh_init vs cs = Return m.
Proof.
  intros Hv. unfold Mesh_init.
  destruct (foldM_seq_total (init_step vs cs) (fun _ _ => True) (length cs) 0
              (replicate (length cs) vzero, ∅)) as [[nl d] Hfold]; [done | |].
  - intros i [nl d] Hi _.
    destruct (lookup_lt_is_Some_2 cs i) as [[[c0 c1] c2] Hc]; [lia |].
    destruct (Hv i c0 c1 c2 Hc) as (V0 & V1 & V2).
    apply np_getitem_valid in V0 as [p0 H0], V1 as [p1 H1], V2 as [p2 H2].
    unfold init_step. apply getitem_Return in Hc. rewrite Hc. simpl.
    rewrite H1. simpl. rewrite H0. simpl. rewrite H2. simpl. eauto.
  - rewrite Hfold. simpl. eauto.
Qed.

Lemma init_step_Raise vs cs st i e : init_step vs cs st i = Raise e -> e = IndexError.
Proof.
  destruct st as [nl d]. unfold init_step. intros H.
  apply bind_Raise in H as [H|([[c0 c1] c2] & _ & H)]; [apply getitem_Raise in H; tauto |].
  repeat (apply bind_Raise in H as [H|(? & _ & H)]; [by apply np_getitem_Raise in H |]).
  discriminate.
Qed.

Lemma Mesh_init_Raise vs cs e : Mesh_init vs cs = Raise e -> e = IndexError.
Proof.
  unfold Mesh_init. intros H.
  apply bind_Raise in H as [H|([nl d] & _ & H)]; [| discriminate].
  revert H. apply (foldM_Raise _ (fun e => e = IndexError)).
  intros s a e'. apply init_step_Raise.
Qed.

End Construction.

(** ** argsort is a permutation of the indices *)

Section Argsort.
Context {F : Type} {SF : Scalar F}.

Lemma argsort_insert_perm (keys : list F) (o : nat) (sorted : list nat) :
  argsort_insert keys o sorted ≡ₚ o :: sorted.
Proof.
  induction sorted as [|h rest IH]; simpl; [done |].
  destruct (keys !! o) as [ko|], (keys !! h) as [kh|];
    try destruct (s_sort_lt ko kh); try done;
    rewrite IH; apply Permutation_swap.
Qed.

Lemma argsort_fold_perm (keys : list F) (todo acc : list nat) :
  fold_left (fun sorted o => argsort_insert keys o sorted) todo acc ≡ₚ acc ++ todo.
Proof.
  revert acc. induction todo as [|o todo IH]; intros acc; simpl.
  - by rewrite app_nil_r.
  - rewrite IH, argsort_insert_perm.
    by rewrite (Permutation_middle acc todo o).
Qed.

Lemma argsort_perm (keys : list F) : argsort keys ≡ₚ seq 0 (length keys).
Proof. unfold argsort. by rewrite argsort_fold_perm. Qed.

Lemma argsort_lt (keys : list F) (o : nat) : o ∈ argsort keys -> o < length keys.
Proof.
  rewrite argsort_perm, elem_of_seq. lia.
Qed.

Lemma argsort_length (keys : list F) : length (argsort keys) = length keys.
Proof. by rewrite argsort_perm, length_seq. Qed.

End Argsort.


(** ** argsort sorts *)

Section Sorting.
Context {F : Type} {SF : Scalar F} {SO : SortOrder F}.

Lemma argsort_insert_sorted (keys : list F) (o : nat) (sorted : list nat) :
  StronglySorted (key_le keys) sorted ->
  StronglySorted (key_le keys) (argsort_insert keys o sorted).
Proof.
  induction sorted as [|h rest IH]; intros Hs; simpl.
  - repeat constructor.
  - apply StronglySorted_cons in Hs as [Hall Hs].
    assert (key_le keys h o ->
            StronglySorted (key_le keys) (h :: argsort_insert keys o rest)) as Hkeep.
    { intros Hho. apply SSorted_cons; [by apply IH |].
      rewrite argsort_insert_perm. by apply Forall_cons. }
    unfold key_le in Hkeep.
    destruct (keys !! o) as [ko|] eqn:Hko; [| apply Hkeep; intros; discriminate].
    destruct (keys !! h) as [kh|] eqn:Hkh; [| apply Hkeep; intros; discriminate].
    destruct (s_sort_lt ko kh) eqn:Hlt; [| apply Hkeep; by intros d1 d2 [= <-] [= <-]].
    apply SSorted_cons; [by apply SSorted_cons |].
    apply Forall_cons. split.
    + intros d1 d2 H1 H2. assert (d1 = ko) as -> by congruence.
      assert (d2 = kh) as -> by congruence. by apply sort_lt_asym.
    + eapply Forall_impl; [exact Hall |]. intros x Hx d1 d2 H1 H2.
      assert (d1 = ko) as -> by congruence.
      destruct (s_sort_lt d2 ko) eqn:Hx'; [| done].
      pose proof (sort_lt_trans _ _ _ Hx' Hlt) as Hbad.
      by rewrite (Hx kh d2 Hkh H2) in Hbad.
Qed.

Lemma argsort_sorted (keys : list F) : StronglySorted (key_le keys) (argsort keys).
Proof.
  unfold argsort. generalize (seq 0 (length keys)).
  assert (StronglySorted (key_le keys) []) as Hnil by constructor.
  revert Hnil. generalize (@nil nat). intros acc Hacc todo. revert acc Hacc.
  induction todo as [|o todo IH]; intros acc Hacc; simpl; [done |].
  apply IH. by apply argsort_insert_sorted.
Qed.




End Sorting.

(** ** The binary64 sort order is a strict order *)

Ltac cmp_cases :=
  repeat match goal with
         | H : context [Z.compare ?x ?y] |- _ => destruct (Z.compare_spec x y); subst
         | |- context [Z.compare ?x ?y] => destruct (Z.compare_spec x y); subst
         | H : context [Pos.compare_cont Eq ?x ?y] |- _ =>
             change (Pos.compare_cont Eq x y) with (Pos.compare x y) in *;
             destruct (Pos.compare_spec x y); subst
         | |- context [Pos.compare_cont Eq ?x ?y] =>
             change (Pos.compare_cont Eq x y) with (Pos.compare x y) in *;
             destruct (Pos.compare_spec x y); subst
         end.

Lemma SFcompare_Lt_trans (a b c : spec_float) :
  SFcompare a b = Some Lt -> SFcompare b c = Some Lt -> SFcompare a c = Some Lt.
Proof.
  destruct a as [[]|[]| |[] m1 e1], b as [[]|[]| |[] m2 e2], c as [[]|[]| |[] m3 e3];
    simpl; try discriminate; try reflexivity; intros H1 H2;
    cmp_cases; simpl in *; try discriminate; try reflexivity; try lia.
Qed.

Lemma SFcompare_Lt_asym (a b : spec_float) :
  SFcompare a b = Some Lt -> SFcompare b a = Some Gt.
Proof.
  destruct a as [[]|[]| |[] m1 e1], b as [[]|[]| |[] m2 e2];
    simpl; try discriminate; try reflexivity; intros H1;
    cmp_cases; simpl in *; try discriminate; try reflexivity; try lia.
Qed.

Lemma SFcompare_nan_l (a b : spec_float) :
  SFcompare a a <> Some Eq -> SFcompare a b = None /\ SFcompare b a = None.
Proof.
  destruct a as [[]|[]| |[] m1 e1]; simpl; try congruence;
    try (rewrite Z.compare_refl;
         change (Pos.compare_cont Eq m1 m1) with (Pos.compare m1 m1);
         rewrite Pos.compare_refl; simpl; congruence).
  intros _. by destruct b as [[]|[]| |[] m2 e2].
Qed.

Lemma float_ltb_true (a b : float) :
  PrimFloat.ltb a b = true <-> SFcompare (Prim2SF a) (Prim2SF b) = Some Lt.
Proof.
  rewrite FloatAxioms.ltb_spec. unfold SFltb.
  destruct (SFcompare (Prim2SF a) (Prim2SF b)) as [[]|]; split; congruence.
Qed.

Lemma float_is_nan_true (a : float) :
  PrimFloat.is_nan a = true <-> SFcompare (Prim2SF a) (Prim2SF a) <> Some Eq.
Proof.
  unfold is_nan. rewrite FloatAxioms.eqb_spec. unfold SFeqb.
  destruct (SFcompare (Prim2SF a) (Prim2SF a)) as [[]|]; simpl; split; congruence.
Qed.

Lemma float_sort_lt_true (a b : float) :
  s_sort_lt a b = true <->
  SFcompare (Prim2SF a) (Prim2SF b) = Some Lt \/
  (PrimFloat.is_nan b = true /\ PrimFloat.is_nan a = false).
Proof.
  simpl. rewrite orb_true_iff, andb_true_iff, negb_true_iff, float_ltb_true. tauto.
Qed.

Lemma lt_not_nan (a b : float) :
  SFcompare (Prim2SF a) (Prim2SF b) = Some Lt ->
  PrimFloat.is_nan a = false /\ PrimFloat.is_nan b = false.
Proof.
  intros H. split.
  - destruct (PrimFloat.is_nan a) eqn:Hn; [| done]. apply float_is_nan_true in Hn.
    destruct (SFcompare_nan_l _ (Prim2SF b) Hn). congruence.
  - destruct (PrimFloat.is_nan b) eqn:Hn; [| done]. apply float_is_nan_true in Hn.
    destruct (SFcompare_nan_l _ (Prim2SF a) Hn). congruence.
Qed.

Lemma float_sort_lt_trans (a b c : float) :
  s_sort_lt a b = true -> s_sort_lt b c = true -> s_sort_lt a c = true.
Proof.
  rewrite !float_sort_lt_true. intros [H1|[Hb Ha]] [H2|[Hc Hb']].
  - left. eapply SFcompare_Lt_trans; eauto.
  - right. split; [done |]. by apply lt_not_nan in H1 as [? _].
  - apply lt_not_nan in H2 as [? _]. congruence.
  - congruence.
Qed.

Lemma float_sort_lt_asym (a b : float) : s_sort_lt a b = true -> s_sort_lt b a = false.
Proof.
  intros H. destruct (s_sort_lt b a) eqn:H'; [| done]. exfalso.
  apply float_sort_lt_true in H, H'. destruct H as [H|[Hb Ha]], H' as [H'|[Ha' Hb']].
  - apply SFcompare_Lt_asym in H. congruence.
  - apply lt_not_nan in H as [? _]. congruence.
  - apply lt_not_nan in H' as [? _]. congruence.
  - congruence.
Qed.

#[export] Instance float_sort_order : SortOrder float.
Proof. split; [exact float_sort_lt_trans | exact float_sort_lt_asym]. Qed.

(** ** project_new_point on a well-formed mesh *)

Section Projection.
Context {F : Type} {SF : Scalar F}.

Lemma project_new_point_unfold (m : Mesh F) (p : vec F) :
  let node := tree_query (tree m) p in
  let triangles := adjacency (node_to_tri m) node in
  project_new_point m p =
  (touched m node,
   if Nat.eqb (length triangles) 0 then Raise UnconnectedVertex
   else
     let* pre := pre_project m node triangles p in
     let* CPP := plane_distances m pre triangles in
     search m pre triangles CPP (argsort (map s_abs CPP)) None).
Proof.
  intros node triangles. unfold project_new_point, touched. fold node.
  destruct (adjacency_dd_getitem (node_to_tri m) node node) as [_ Hfst].
  fold triangles in Hfst.
  destruct (dd_getitem (node_to_tri m) node) as [l d]. simpl in *. subst l.
  f_equal. destruct (length triangles =? 0)%nat; [done |].
  unfold pre_project, plane_distances. simpl.
  destruct (mapM (getitem (normals m)) triangles) as [rows|e]; simpl; [| done].
  destruct (np_getitem (verts m) node) as [pv|e]; simpl; [| done].
  match goal with |- bind ?a _ = bind ?b _ => destruct a as [CPP|e] end; simpl; [| done].
  generalize (@None (vec F)). generalize (argsort (map s_abs CPP)).
  intros order. induction order as [|o order IH]; intros q; simpl; [done |].
  unfold candidate, corners. simpl.
  repeat match goal with
         | |- context [bind ?a _] => destruct a; simpl; [| done]
         | |- context [let '(_, _) := ?a in _] => destruct a
         end.
  case_match; [done | apply IH].
Qed.

Lemma wf_incident (m : Mesh F) (v : Z) (t : nat) :
  well_formed m -> t ∈ adjacency (node_to_tri m) v ->
  exists c0 c1 c2 p0 p1 p2,
    connectivity m !! t = Some (c0, c1, c2) /\ (c0 = v \/ c1 = v \/ c2 = v) /\
    np_getitem (verts m) c0 = Return p0 /\ np_getitem (verts m) c1 = Return p1 /\
    np_getitem (verts m) c2 = Return p2 /\
    normals m !! t = Some (unit_normal p0 p1 p2).
Proof.
  intros Hwf Ht. rewrite (wf_adjacency m Hwf) in Ht.
  apply elem_of_incident in Ht as (c0 & c1 & c2 & _ & Hc & Hv).
  rewrite Nat.sub_0_r in Hc.
  destruct (wf_triangles m Hwf t) as (a0 & a1 & a2 & p0 & p1 & p2 & Ha & H0 & H1 & H2 & Hn).
  { by apply lookup_lt_Some in Hc. }
  assert (a0 = c0 /\ a1 = c1 /\ a2 = c2) as (-> & -> & ->) by (split_and!; congruence).
  exists c0, c1, c2, p0, p1, p2. auto 10.
Qed.

Lemma wf_corners (m : Mesh F) (v : Z) (t : nat) :
  well_formed m -> t ∈ adjacency (node_to_tri m) v ->
  exists p0 p1 p2,
    corners m t = Return (p0, p1, p2) /\ normals m !! t = Some (unit_normal p0 p1 p2).
Proof.
  intros Hwf Ht.
  destruct (wf_incident m v t Hwf Ht)
    as (c0 & c1 & c2 & p0 & p1 & p2 & Hc & _ & H0 & H1 & H2 & Hn).
  exists p0, p1, p2. split; [| done].
  unfold corners. apply getitem_Return in Hc. rewrite Hc. simpl.
  rewrite H0. simpl. rewrite H1. simpl. rewrite H2. done.
Qed.

Lemma wf_node_position (m : Mesh F) (v : Z) :
  well_formed m -> adjacency (node_to_tri m) v <> [] ->
  exists pv, np_getitem (verts m) v = Return pv.
Proof.
  intros Hwf Hne.
  destruct (adjacency (node_to_tri m) v) as [|t l] eqn:Hadj; [done |].
  destruct (wf_incident m v t Hwf)
    as (c0 & c1 & c2 & p0 & p1 & p2 & _ & Hv & H0 & H1 & H2 & _).
  { rewrite Hadj. left. }
  destruct Hv as [<-|[<-|<-]]; eauto.
Qed.

Lemma pre_project_total (m : Mesh F) (v : Z) (p : vec F) :
  well_formed m -> adjacency (node_to_tri m) v <> [] ->
  exists pre, pre_project m v (adjacency (node_to_tri m) v) p = Return pre.
Proof.
  intros Hwf Hne. unfold pre_project.
  destruct (mapM_total (getitem (normals m)) (adjacency (node_to_tri m) v)) as [rows ->].
  { intros t Ht. destruct (wf_corners m v t Hwf Ht) as (p0 & p1 & p2 & _ & Hn).
    eexists. by apply getitem_Return. }
  destruct (wf_node_position m v Hwf Hne) as [pv ->]. simpl. eauto.
Qed.

Lemma plane_distances_total (m : Mesh F) (v : Z) (pre : vec F) :
  well_formed m ->
  exists CPP, plane_distances m pre (adjacency (node_to_tri m) v) = Return CPP.
Proof.
  intros Hwf. unfold plane_distances. apply mapM_total. intros t Ht.
  destruct (wf_incident m v t Hwf Ht)
    as (c0 & c1 & c2 & p0 & p1 & p2 & Hc & _ & H0 & _ & _ & Hn).
  apply getitem_Return in Hc, Hn. rewrite Hc. simpl. rewrite H0. simpl.
  rewrite Hn. simpl. eauto.
Qed.

Lemma plane_distances_length (m : Mesh F) (pre : vec F) (T : list nat) (CPP : list F) :
  plane_distances m pre T = Return CPP -> length CPP = length T.
Proof. intros H. by apply mapM_Return in H as [? _]. Qed.

Lemma candidate_total (m : Mesh F) (v : Z) (pre : vec F) (CPP : list F) (o : nat) :
  well_formed m ->
  length CPP = length (adjacency (node_to_tri m) v) -> o < length CPP ->
  exists i q b,
    candidate m pre (adjacency (node_to_tri m) v) CPP o = Return (i, q, b) /\
    adjacency (node_to_tri m) v !! o = Some i.
Proof.
  intros Hwf Hlen Ho. unfold candidate.
  destruct (lookup_lt_is_Some_2 (adjacency (node_to_tri m) v) o) as [i Hi]; [lia |].
  destruct (lookup_lt_is_Some_2 CPP o Ho) as [d Hd].
  destruct (wf_corners m v i Hwf) as (p0 & p1 & p2 & Hc & Hn).
  { apply list_elem_of_lookup. eauto. }
  pose proof Hi as Hi'. apply getitem_Return in Hi', Hd, Hn. rewrite Hi', Hd. simpl.
  rewrite Hn. simpl. rewrite Hc. simpl. eauto.
Qed.

(** The loop returns the first candidate the test accepts, and after a
    full pass the point of the last candidate tried. *)
Lemma search_accept (m : Mesh F) pre T CPP (tried : list nat) (o : nat) (rest : list nat)
    (i : nat) (q : vec F) (q0 : option (vec F)) :
  (forall o', o' ∈ tried -> exists i' q', candidate m pre T CPP o' = Return (i', q', false)) ->
  candidate m pre T CPP o = Return (i, q, true) ->
  search m pre T CPP (tried ++ o :: rest) q0 = Return (q, Z.of_nat i).
Proof.
  revert q0. induction tried as [|o' tried IH]; intros q0 Hrej Hacc; simpl.
  - by rewrite Hacc.
  - destruct (Hrej o') as (i' & q' & ->); [left |]. simpl.
    apply IH; [| done]. intros o'' Ho''. apply Hrej. by right.
Qed.


Lemma search_total (m : Mesh F) (v : Z) pre CPP (order : list nat) (q0 : option (vec F)) :
  well_formed m ->
  length CPP = length (adjacency (node_to_tri m) v) ->
  (forall o, o ∈ order -> o < length CPP) ->
  order <> [] \/ is_Some q0 ->
  exists q t,
    search m pre (adjacency (node_to_tri m) v) CPP order q0 = Return (q, t) /\
    (t = (-1)%Z \/ exists i, t = Z.of_nat i /\ i ∈ adjacency (node_to_tri m) v).
Proof.
  intros Hwf Hlen. revert q0. induction order as [|o order IH]; intros q0 Hlt Hq; simpl.
  - destruct Hq as [|[q ->]]; [done |]. eauto.
  - destruct (candidate_total m v pre CPP o Hwf Hlen) as (i & q & b & -> & Hi).
    { apply Hlt. left. }
    simpl. destruct b.
    + exists q, (Z.of_nat i). split; [done |]. right. exists i. split; [done |].
      apply list_elem_of_lookup. eauto.
    + apply IH; [| by right]. intros o' Ho'. apply Hlt. by right.
Qed.

(** On a well-formed mesh the call raises exactly when the nearest vertex
    has no triangle, and returns otherwise. *)
Lemma project_cases (m : Mesh F) (p : vec F) :
  well_formed m ->
  let T := adjacency (node_to_tri m) (tree_query (tree m) p) in
  (T = [] /\ snd (project_new_point m p) = Raise UnconnectedVertex) \/
  (T <> [] /\ exists q t,
      snd (project_new_point m p) = Return (q, t) /\
      (t = (-1)%Z \/ exists i, t = Z.of_nat i /\ i ∈ T)).
Proof.
  intros Hwf T. rewrite project_new_point_unfold. simpl. fold T.
  destruct T as [|t0 T'] eqn:HT; [left; done | right]. split; [done |].
  rewrite <- HT. replace (length T =? 0)%nat with false by (by rewrite HT).
  assert (T <> []) as Hne by (by rewrite HT).
  destruct (pre_project_total m _ p Hwf Hne) as [pre Hpre]. fold T in Hpre.
  rewrite Hpre. simpl.
  destruct (plane_distances_total m (tree_query (tree m) p) pre Hwf) as [CPP HCPP].
  fold T in HCPP. rewrite HCPP. simpl.
  pose proof (plane_distances_length _ _ _ _ HCPP) as Hlen.
  apply search_total; [done | done | |].
  - intros o Ho. apply argsort_lt in Ho. by rewrite length_map in Ho.
  - left. intros Hnil. apply (f_equal length) in Hnil.
    rewrite argsort_length, length_map, Hlen, HT in Hnil. done.
Qed.

End Projection.

(** ** What one candidate computes *)

Section Candidate.
Context {F : Type} {SF : Scalar F}.

Lemma plane_distances_lookup (m : Mesh F) (pre : vec F) (T : list nat) (CPP : list F)
    (o t : nat) :
  plane_distances m pre T = Return CPP -> T !! o = Some t ->
  exists c0 c1 c2 p0 n,
    connectivity m !! t = Some (c0, c1, c2) /\ np_getitem (verts m) c0 = Return p0 /\
    normals m !! t = Some n /\ CPP !! o = Some (dot (vsub pre p0) n).
Proof.
  intros H Ht. apply mapM_Return in H as [_ H].
  destruct (H o t Ht) as (d & Hd & Hf).
  apply bind_Return in Hf as ([[c0 c1] c2] & Hc & Hf).
  apply bind_Return in Hf as (p0 & H0 & Hf).
  apply bind_Return in Hf as (n & Hn & [= <-]).
  apply getitem_Return in Hc, Hn. exists c0, c1, c2, p0, n. auto.
Qed.

Lemma candidate_spec (m : Mesh F) (pre : vec F) (T : list nat) (CPP : list F)
    (o i : nat) (q : vec F) (b : bool) :
  candidate m pre T CPP o = Return (i, q, b) ->
  exists d n p0 p1 p2,
    T !! o = Some i /\ CPP !! o = Some d /\ normals m !! i = Some n /\
    corners m i = Return (p0, p1, p2) /\
    q = vsub pre (scalev d n) /\
    b = in_triangle (vsub p1 p0) (vsub p2 p0) (vsub q p0).
Proof.
  unfold candidate. intros H.
  apply bind_Return in H as (i' & Hi & H).
  apply bind_Return in H as (d & Hd & H).
  apply bind_Return in H as (n & Hn & H).
  apply bind_Return in H as ([[p0 p1] p2] & Hc & [= -> <- <-]).
  apply getitem_Return in Hi, Hd, Hn.
  exists d, n, p0, p1, p2. auto 10.
Qed.

Lemma corners_spec (m : Mesh F) (i : nat) (p0 p1 p2 : vec F) :
  corners m i = Return (p0, p1, p2) ->
  exists c0 c1 c2,
    connectivity m !! i = Some (c0, c1, c2) /\ np_getitem (verts m) c0 = Return p0 /\
    np_getitem (verts m) c1 = Return p1 /\ np_getitem (verts m) c2 = Return p2.
Proof.
  unfold corners. intros H.
  apply bind_Return in H as ([[c0 c1] c2] & Hc & H).
  apply bind_Return in H as (q0 & H0 & H).
  apply bind_Return in H as (q1 & H1 & H).
  apply bind_Return in H as (q2 & H2 & [= <- <- <-]).
  apply getitem_Return in Hc. exists c0, c1, c2. auto.
Qed.

(** The acceptance test, comparison by comparison. *)
Lemma in_triangle_true (u v w : vec F) :
  in_triangle u v w = true <->
  let vxw := cross v w in
  let vxu := cross v u in
  let uxw := cross u w in
  let r := s_div (norm vxw) (norm vxu) in
  let t := s_div (norm uxw) (norm vxu) in
  s_le s_zero (dot vxw vxu) = true /\ s_le s_zero (dot uxw (vneg vxu)) = true /\
  s_le r s_one = true /\ s_le t s_one = true /\ s_le (s_add r t) s_tol = true.
Proof.
  unfold in_triangle. cbv zeta.
  repeat match goal with |- context [s_le ?a ?b] => destruct (s_le a b) end;
    simpl; intuition congruence.
Qed.

End Candidate.

(** ** Frame of a call *)

Section Frame.
Context {F : Type} {SF : Scalar F}.

Lemma touched_present (m : Mesh F) (node : Z) :
  is_Some (node_to_tri m !! node) -> touched m node = m.
Proof.
  intros [l Hl]. unfold touched, dd_getitem. rewrite Hl. by destruct m.
Qed.

Lemma touched_absent (m : Mesh F) (node : Z) :
  node_to_tri m !! node = None ->
  node_to_tri (touched m node) = <[node := []]> (node_to_tri m).
Proof. intros Hl. unfold touched, dd_getitem. by rewrite Hl. Qed.

Lemma project_raises_or_untouched (m : Mesh F) (p : vec F) :
  snd (project_new_point m p) = Raise UnconnectedVertex \/
  is_Some (node_to_tri m !! tree_query (tree m) p).
Proof.
  rewrite project_new_point_unfold. simpl. unfold adjacency.
  destruct (node_to_tri m !! tree_query (tree m) p) as [l|]; simpl; eauto.
Qed.

End Frame.

(** ** Exact arithmetic *)

Lemma Rleb_true (a b : R) : Rleb a b = true <-> (a <= b)%R.
Proof. unfold Rleb. destruct (Rle_dec a b); split; intros; try done; lra. Qed.

Lemma Rltb_true (a b : R) : Rltb a b = true <-> (a < b)%R.
Proof. unfold Rltb. destruct (Rlt_dec a b); split; intros; try done; lra. Qed.

Lemma Rltb_false (a b : R) : Rltb a b = false <-> (b <= a)%R.
Proof. unfold Rltb. destruct (Rlt_dec a b); split; intros; try done; lra. Qed.

#[export] Instance R_sort_order : SortOrder R.
Proof.
  split; simpl.
  - intros a b c Hab Hbc. apply Rltb_true in Hab, Hbc. apply Rltb_true. lra.
  - intros a b Hab. apply Rltb_true in Hab. apply Rltb_false. lra.
Qed.

(** Vectors over the reals, component by component. *)
Ltac vec_destruct :=
  repeat match goal with
         | v : vec R |- _ => destruct v as [[? ?] ?]
         end.

Ltac vec_unfold :=
  unfold unit_normal, in_triangle, norm, sqdist, dot, cross, vsub, vadd, vscale,
    scalev, vdiv, vneg, vzero in *;
  cbn [s_zero s_one s_tol s_add s_sub s_mul s_div s_neg s_sqrt s_abs s_le s_lt
       s_sort_lt R_scalar] in *.

(** Decide the comparisons of closed real expressions in the goal. *)
Ltac Rltb_decide :=
  repeat match goal with
         | |- context [Rltb ?a ?b] =>
             first [ replace (Rltb a b) with true by (symmetry; apply Rltb_true; lra)
                   | replace (Rltb a b) with false by (symmetry; apply Rltb_false; lra) ]
         end.

Lemma vsub_diag (p : vec R) : vsub p p = vzero.
Proof. vec_destruct. vec_unfold. repeat f_equal; ring. Qed.

Lemma cross_zero_r (a : vec R) : cross a vzero = vzero.
Proof. vec_destruct. vec_unfold. repeat f_equal; ring. Qed.

Lemma cross_diag (a : vec R) : cross a a = vzero.
Proof. vec_destruct. vec_unfold. repeat f_equal; ring. Qed.

Lemma dot_zero_l (a : vec R) : dot vzero a = 0%R.
Proof. vec_destruct. vec_unfold. ring. Qed.

Lemma norm_zero : norm (@vzero R _) = 0%R.
Proof. vec_unfold. replace (0 * 0 + 0 * 0 + 0 * 0)%R with 0%R by ring. apply sqrt_0. Qed.

Lemma dot_self_nonneg (a : vec R) : (0 <= dot a a)%R.
Proof. vec_destruct. vec_unfold. nra. Qed.

Lemma neg_cross (u v : vec R) : vneg (cross v u) = cross u v.
Proof. vec_destruct. vec_unfold. repeat f_equal; ring. Qed.

Lemma norm_cross_swap (u v : vec R) : norm (cross v u) = norm (cross u v).
Proof. vec_destruct. vec_unfold. f_equal. ring. Qed.

Lemma Rdiv_self_le_1 (x : R) : (x / x <= 1)%R.
Proof.
  destruct (Req_dec x 0) as [->|Hx].
  - unfold Rdiv. rewrite Rmult_0_l. lra.
  - unfold Rdiv. rewrite Rinv_r by done. lra.
Qed.

Lemma in_triangle_exact (u v w : vec R) :
  in_triangle u v w = true <->
  (0 <= dot (cross v w) (cross v u) /\ 0 <= dot (cross u w) (vneg (cross v u)) /\
   norm (cross v w) / norm (cross v u) <= 1 /\
   norm (cross u w) / norm (cross v u) <= 1 /\
   norm (cross v w) / norm (cross v u) + norm (cross u w) / norm (cross v u)
     <= 1001 / 1000)%R.
Proof.
  rewrite in_triangle_true. cbv zeta.
  cbn [s_zero s_one s_tol s_add s_div s_le R_scalar]. by rewrite !Rleb_true.
Qed.

Lemma plane_distance_at_vertex (p0 p1 p2 pv : vec R) :
  pv = p0 \/ pv = p1 \/ pv = p2 ->
  dot (vsub pv p0) (unit_normal p0 p1 p2) = 0%R.
Proof.
  intros [->|[->| ->]]; vec_destruct; vec_unfold; unfold Rdiv; ring.
Qed.

Lemma in_triangle_at_vertex (p0 p1 p2 pv : vec R) :
  pv = p0 \/ pv = p1 \/ pv = p2 ->
  in_triangle (vsub p1 p0) (vsub p2 p0) (vsub pv p0) = true.
Proof.
  intros Hv. apply in_triangle_exact.
  set (u := vsub p1 p0). set (v := vsub p2 p0).
  destruct Hv as [->|[->| ->]].
  - rewrite vsub_diag, !cross_zero_r, !dot_zero_l, norm_zero.
    unfold Rdiv. rewrite !Rmult_0_l. lra.
  - fold u. rewrite cross_diag, dot_zero_l, norm_zero.
    pose proof (dot_self_nonneg (cross v u)).
    pose proof (Rdiv_self_le_1 (norm (cross v u))).
    unfold Rdiv in *. rewrite !Rmult_0_l. lra.
  - fold v. rewrite cross_diag, dot_zero_l, norm_zero, neg_cross, norm_cross_swap.
    pose proof (dot_self_nonneg (cross u v)).
    pose proof (Rdiv_self_le_1 (norm (cross u v))).
    unfold Rdiv in *. rewrite !Rmult_0_l. lra.
Qed.

Lemma pre_project_at_vertex (m : Mesh R) (v : Z) (T : list nat) (pv pre : vec R) :
  np_getitem (verts m) v = Return pv ->
  pre_project m v T pv = Return pre -> pre = pv.
Proof.
  intros Hv H. unfold pre_project in H.
  apply bind_Return in H as (rows & _ & H).
  apply bind_Return in H as (pv' & Hv' & H). cbv zeta in H. injection H as <-.
  assert (pv' = pv) as -> by congruence.
  match goal with |- context [vscale ?n _] => generalize n end. intros vn.
  vec_destruct. vec_unfold. repeat f_equal; ring.
Qed.

Lemma vsub_scalev_zero (p n : vec R) : vsub p (scalev 0%R n) = p.
Proof. vec_destruct. vec_unfold. repeat f_equal; ring. Qed.

(** The corner of an incident triangle that sits on the vertex. *)
Lemma wf_incident_corner (m : Mesh R) (v : Z) (t : nat) (pv p0 p1 p2 : vec R) :
  well_formed m -> t ∈ adjacency (node_to_tri m) v ->
  np_getitem (verts m) v = Return pv ->
  corners m t = Return (p0, p1, p2) ->
  (pv = p0 \/ pv = p1 \/ pv = p2) /\ normals m !! t = Some (unit_normal p0 p1 p2).
Proof.
  intros Hwf Ht Hv Hc.
  destruct (wf_incident m v t Hwf Ht)
    as (c0 & c1 & c2 & q0 & q1 & q2 & Hconn & Hin & H0 & H1 & H2 & Hn).
  apply corners_spec in Hc as (a0 & a1 & a2 & Ha & G0 & G1 & G2).
  assert (a0 = c0 /\ a1 = c1 /\ a2 = c2) as (-> & -> & ->) by (split_and!; congruence).
  assert (q0 = p0 /\ q1 = p1 /\ q2 = p2) as (-> & -> & ->) by (split_and!; congruence).
  split; [| done].
  destruct Hin as [->|[->| ->]]; [left | right; left | right; right]; congruence.
Qed.

Lemma plane_distances_at_vertex (m : Mesh R) (v : Z) (pv : vec R) (CPP : list R) :
  well_formed m -> np_getitem (verts m) v = Return pv ->
  plane_distances m pv (adjacency (node_to_tri m) v) = Return CPP ->
  forall o d, CPP !! o = Some d -> d = 0%R.
Proof.
  intros Hwf Hv H o d Hd.
  pose proof (plane_distances_length _ _ _ _ H) as Hlen.
  destruct (lookup_lt_is_Some_2 (adjacency (node_to_tri m) v) o) as [t Ht].
  { rewrite <- Hlen. by apply lookup_lt_Some in Hd. }
  destruct (plane_distances_lookup m pv _ CPP o t H Ht)
    as (c0 & c1 & c2 & p0 & n & Hc & H0 & Hn & Hd').
  assert (t ∈ adjacency (node_to_tri m) v) as Hin by (apply list_elem_of_lookup; eauto).
  destruct (wf_corners m v t Hwf Hin) as (q0 & q1 & q2 & Hcor & Hn').
  destruct (wf_incident_corner m v t pv q0 q1 q2 Hwf Hin Hv Hcor) as [Hpv _].
  pose proof Hcor as Hcor'. apply corners_spec in Hcor' as (a0 & a1 & a2 & Ha & G0 & _).
  assert (a0 = c0) as -> by congruence. assert (q0 = p0) as -> by congruence.
  assert (n = unit_normal p0 q1 q2) as -> by congruence.
  rewrite Hd' in Hd. injection Hd as <-. by apply plane_distance_at_vertex.
Qed.

Lemma candidate_at_vertex (m : Mesh R) (v : Z) (pv : vec R) (CPP : list R)
    (o i : nat) (q : vec R) (b : bool) :
  well_formed m -> np_getitem (verts m) v = Return pv ->
  (forall o d, CPP !! o = Some d -> d = 0%R) ->
  candidate m pv (adjacency (node_to_tri m) v) CPP o = Return (i, q, b) ->
  q = pv /\ b = true /\ i ∈ adjacency (node_to_tri m) v.
Proof.
  intros Hwf Hv Hzero H.
  apply candidate_spec in H as (d & n & p0 & p1 & p2 & Hi & Hd & Hn & Hc & -> & ->).
  apply Hzero in Hd as ->. rewrite vsub_scalev_zero.
  assert (i ∈ adjacency (node_to_tri m) v) as Hin by (apply list_elem_of_lookup; eauto).
  destruct (wf_incident_corner m v i pv p0 p1 p2 Hwf Hin Hv Hc) as [Hpv _].
  split; [done |]. split; [| done]. by apply in_triangle_at_vertex.
Qed.

Lemma project_at_vertex (m : Mesh R) (pv : vec R) :
  well_formed m ->
  let v := tree_query (tree m) pv in
  np_getitem (verts m) v = Return pv ->
  adjacency (node_to_tri m) v <> [] ->
  exists t, snd (project_new_point m pv) = Return (pv, Z.of_nat t) /\
            t ∈ adjacency (node_to_tri m) v.
Proof.
  intros Hwf v Hv Hne. rewrite project_new_point_unfold. simpl. fold v.
  assert (length (adjacency (node_to_tri m) v) <> 0) as Hlen0.
  { by destruct (adjacency (node_to_tri m) v). }
  apply Nat.eqb_neq in Hlen0 as Heqb. rewrite Heqb. clear Heqb.
  destruct (pre_project_total m v pv Hwf Hne) as [pre Hpre].
  rewrite Hpre. simpl.
  apply (pre_project_at_vertex m v _ pv pre Hv) in Hpre as ->.
  destruct (plane_distances_total m v pv Hwf) as [CPP HCPP]. rewrite HCPP. simpl.
  pose proof (plane_distances_length _ _ _ _ HCPP) as Hlen.
  pose proof (plane_distances_at_vertex m v pv CPP Hwf Hv HCPP) as Hzero.
  destruct (argsort (map Rabs CPP)) as [|o order] eqn:Hord.
  { apply (f_equal length) in Hord. rewrite argsort_length, length_map, Hlen in Hord.
    done. }
  destruct (candidate_total m v pv CPP o Hwf Hlen) as (i & q & b & Hcand & Hi).
  { assert (o ∈ argsort (map Rabs CPP)) as Ho by (rewrite Hord; left).
    apply argsort_lt in Ho. by rewrite length_map in Ho. }
  destruct (candidate_at_vertex m v pv CPP o i q b Hwf Hv Hzero Hcand) as (-> & -> & Hin).
  exists i. split; [| done].
  simpl. by rewrite Hcand.
Qed.

(** ** The call from the answered vertex, under any sorting order *)

Section Body.
Context {F : Type} {SF : Scalar F}.

Lemma project_new_point_body (m : Mesh F) (p : vec F) :
  project_new_point m p = project_body argsort m (tree_query (tree m) p) p.
Proof. reflexivity. Qed.

Lemma project_body_unfold (sort : list F -> list nat) (m : Mesh F) (node : Z) (p : vec F) :
  let triangles := adjacency (node_to_tri m) node in
  project_body sort m node p =
  (touched m node,
   if Nat.eqb (length triangles) 0 then Raise UnconnectedVertex
   else
     let* pre := pre_project m node triangles p in
     let* CPP := plane_distances m pre triangles in
     search m pre triangles CPP (sort (map s_abs CPP)) None).
Proof.
  intros triangles. unfold project_body, touched.
  destruct (adjacency_dd_getitem (node_to_tri m) node node) as [_ Hfst].
  fold triangles in Hfst.
  destruct (dd_getitem (node_to_tri m) node) as [l d]. simpl in *. subst l.
  f_equal. destruct (length triangles =? 0)%nat; [done |].
  unfold pre_project, plane_distances. simpl.
  destruct (mapM (getitem (normals m)) triangles) as [rows|e]; simpl; [| done].
  destruct (np_getitem (verts m) node) as [pv|e]; simpl; [| done].
  match goal with |- bind ?a _ = bind ?b _ => destruct a as [CPP|e] end; simpl; [| done].
  generalize (@None (vec F)). generalize (sort (map s_abs CPP)).
  intros order. induction order as [|o order IH]; intros q; simpl; [done |].
  unfold candidate, corners. simpl.
  repeat match goal with
         | |- context [bind ?a _] => destruct a; simpl; [| done]
         | |- context [let '(_, _) := ?a in _] => destruct a
         end.
  case_match; [done | apply IH].
Qed.

Lemma is_argsort_length (sort : list F -> list nat) (keys : list F) :
  is_argsort sort -> length (sort keys) = length keys.
Proof. intros H. destruct (H keys) as [Hp _]. by rewrite Hp, length_seq. Qed.


Lemma argsort_is_argsort {SO : SortOrder F} : is_argsort (argsort (F:=F)).
Proof. intros keys. split; [apply argsort_perm | apply argsort_sorted]. Qed.


(** The two intermediate values of a call, from what the statements say of them. *)
Lemma is_pre_projection_spec (m : Mesh F) (node : Z) (T : list nat) (p pre : vec F) :
  is_pre_projection m node T p pre <-> pre_project m node T p = Return pre.
Proof.
  unfold is_pre_projection, pre_project. split.
  - intros (rows & pv & -> & -> & ->). done.
  - intros H. apply bind_Return in H as (rows & Hrows & H).
    apply bind_Return in H as (pv & Hpv & [= <-]). by exists rows, pv.
Qed.

(** The converse of [mapM_Return]. *)
Lemma mapM_Return_2 {A B} (f : A -> result B) (l : list A) (bs : list B) :
  length bs = length l ->
  (forall i a, l !! i = Some a -> exists b, bs !! i = Some b /\ f a = Return b) ->
  mapM f l = Return bs.
Proof.
  revert bs. induction l as [|a l IH]; intros bs Hlen H; simpl.
  - by destruct bs.
  - destruct bs as [|b bs]; [done |].
    destruct (H 0 a eq_refl) as (b' & [= <-] & ->). simpl.
    rewrite (IH bs); [done | by injection Hlen |].
    intros i a' Hi. apply (H (S i) a' Hi).
Qed.

Lemma is_plane_distances_spec (m : Mesh F) (T : list nat) (pre : vec F) (ds : list F) :
  is_plane_distances m T pre ds -> plane_distances m pre T = Return ds.
Proof.
  intros [Hlen Hds]. unfold plane_distances. apply mapM_Return_2; [done |].
  intros o t Ht. destruct (Hds o t Ht) as (p0 & p1 & p2 & n & Hc & Hn & Hd).
  eexists. split; [exact Hd |].
  apply corners_spec in Hc as (c0 & c1 & c2 & Hc & H0 & _).
  apply getitem_Return in Hc, Hn. rewrite Hc. simpl. rewrite H0. simpl. by rewrite Hn.
Qed.

(** What the test says of the candidate at index [o]. *)
Lemma candidate_accepted (m : Mesh F) (pre : vec F) (T : list nat) (ds : list F)
    (o i : nat) (q : vec F) (b : bool) :
  candidate m pre T ds o = Return (i, q, b) ->
  (b = true -> accepted_at m T pre ds o i q) /\
  (forall t' q', accepted_at m T pre ds o t' q' -> t' = i /\ q' = q /\ b = true).
Proof.
  intros H. apply candidate_spec in H as (d & n & p0 & p1 & p2 & HT & Hd & Hn & Hc & Hq & Hb).
  split.
  - intros ->. exists d, n. split_and!; try done.
    exists p0, p1, p2. split; [done |]. symmetry in Hb. by apply in_triangle_true in Hb.
  - intros t' q' (d' & n' & HT' & Hd' & Hn' & Hq' & (r0 & r1 & r2 & Hc' & Hin)).
    assert (t' = i) as -> by congruence.
    assert (d' = d) as -> by congruence. assert (n' = n) as -> by congruence.
    assert (q' = q) as -> by congruence. split_and!; try done.
    assert (r0 = p0 /\ r1 = p1 /\ r2 = p2) as (-> & -> & ->) by (split_and!; congruence).
    rewrite Hb. by apply in_triangle_true.
Qed.

Lemma candidate_rejected (m : Mesh F) (pre : vec F) (T : list nat) (ds : list F)
    (o i : nat) (q : vec F) :
  candidate m pre T ds o = Return (i, q, false) -> rejected_at m T pre ds o.
Proof.
  intros H. apply candidate_spec in H as (d & n & p0 & p1 & p2 & HT & Hd & Hn & Hc & Hq & Hb).
  exists i, d, n. split_and!; try done. rewrite <- Hq.
  intros (r0 & r1 & r2 & Hc' & Hin).
  assert (r0 = p0 /\ r1 = p1 /\ r2 = p2) as (-> & -> & ->) by (split_and!; congruence).
  apply in_triangle_true in Hin. congruence.
Qed.

(** The loop stops at the first index of the order whose candidate the
    test accepts. *)
Lemma search_first (m : Mesh F) (pre : vec F) (T : list nat) (ds : list F)
    (order : list nat) (q0 : option (vec F)) (k o i : nat) (q : vec F) :
  (forall o', o' ∈ order -> exists i' q' b', candidate m pre T ds o' = Return (i', q', b')) ->
  order !! k = Some o ->
  candidate m pre T ds o = Return (i, q, true) ->
  exists k1 o1 i1 q1,
    k1 <= k /\ order !! k1 = Some o1 /\
    candidate m pre T ds o1 = Return (i1, q1, true) /\
    (forall j o', j < k1 -> order !! j = Some o' ->
                  exists i' q', candidate m pre T ds o' = Return (i', q', false)) /\
    search m pre T ds order q0 = Return (q1, Z.of_nat i1).
Proof.
  revert q0 k. induction order as [|o0 order IH]; intros q0 k Htot Hk Hacc; [done |].
  destruct (Htot o0) as (i0 & r0 & b0 & H0); [left |].
  destruct b0.
  - exists 0, o0, i0, r0. split_and!; [lia | done | done | intros; lia |].
    simpl. by rewrite H0.
  - destruct k as [|k]; [simpl in Hk; congruence |]. simpl in Hk.
    destruct (IH (Some r0) k) as (k1 & o1 & i1 & q1 & Hle & Hk1 & Hc1 & Hrej & Hs);
      [intros o' Ho'; apply Htot; by right | done | done |].
    exists (S k1), o1, i1, q1. split_and!; [lia | done | done | |].
    + intros [|j] o' Hj Ho'; simpl in Ho'; [injection Ho' as <-; eauto |].
      apply (Hrej j o'); [lia | done].
    + simpl. by rewrite H0.
Qed.

End Body.

(** * The constructor *)

(** C6. After construction, a triangle [t] is in [node_to_tri[v]] exactly
    when [v] is one of the three vertex indices of row [t] of the
    connectivity; and when the three indices of every triangle are pairwise
    distinct, no list of [node_to_tri] holds a triangle twice. *)
Theorem node_to_tri_inverts_connectivity {F : Type} {SF : Scalar F}
    (vs : list (vec F)) (cs : list (Z * Z * Z)) (m : Mesh F) :
  Mesh_init vs cs = Return m ->
  (forall (v : Z) (t : nat),
      t ∈ adjacency (node_to_tri m) v <->
      exists c0 c1 c2, cs !! t = Some (c0, c1, c2) /\ (v = c0 \/ v = c1 \/ v = c2)) /\
  ((forall t c0 c1 c2, cs !! t = Some (c0, c1, c2) -> c0 <> c1 /\ c0 <> c2 /\ c1 <> c2) ->
   forall v : Z, NoDup (adjacency (node_to_tri m) v)).
Proof.
  intros H. apply Mesh_init_spec in H as (_ & Hc & Hwf & _). subst cs. split.
  - intros v t. rewrite (wf_adjacency m Hwf), elem_of_incident. split.
    + intros (c0 & c1 & c2 & _ & Hl & Hv). rewrite Nat.sub_0_r in Hl.
      exists c0, c1, c2. split; [done |]. destruct Hv as [<-|[<-|<-]]; auto.
    + intros (c0 & c1 & c2 & Hl & Hv). exists c0, c1, c2.
      rewrite Nat.sub_0_r. split; [lia |]. split; [done |].
      destruct Hv as [->|[->| ->]]; auto.
  - intros Hd v. rewrite (wf_adjacency m Hwf).
    by apply StronglySorted_lt_NoDup, incident_sorted_lt.
Qed.

Lemma node_to_tri_inverts_connectivity_witness :
  (forall (v : Z) (t : nat),
      t ∈ adjacency (node_to_tri quad_mesh) v <->
      exists c0 c1 c2,
        quad_conn !! t = Some (c0, c1, c2) /\ (v = c0 \/ v = c1 \/ v = c2)) /\
  (forall v : Z, NoDup (adjacency (node_to_tri quad_mesh) v)).
Proof.
  destruct (node_to_tri_inverts_connectivity quad_verts quad_conn quad_mesh)
    as [Hmem Hnodup]; [vm_compute; reflexivity |].
  split; [exact Hmem |]. apply Hnodup.
  intros [|[|t]] c0 c1 c2 Ht; simpl in Ht; [| | discriminate];
    injection Ht as <- <- <-; lia.
Defined.

(** C10. After construction every list [node_to_tri[v]] is in ascending
    order of triangle index, strictly so when the three vertex indices of
    every triangle are pairwise distinct. *)
Theorem node_to_tri_ascending {F : Type} {SF : Scalar F}
    (vs : list (vec F)) (cs : list (Z * Z * Z)) (m : Mesh F) :
  Mesh_init vs cs = Return m ->
  forall v : Z,
    StronglySorted le (adjacency (node_to_tri m) v) /\
    ((forall t c0 c1 c2, cs !! t = Some (c0, c1, c2) -> c0 <> c1 /\ c0 <> c2 /\ c1 <> c2) ->
     StronglySorted lt (adjacency (node_to_tri m) v)).
Proof.
  intros H v. apply Mesh_init_spec in H as (_ & Hc & Hwf & _). subst cs.
  rewrite (wf_adjacency m Hwf). split.
  - apply incident_sorted_le.
  - apply incident_sorted_lt.
Qed.

Lemma node_to_tri_ascending_witness :
  adjacency (node_to_tri quad_mesh) 2 = [0; 1] /\
  StronglySorted le (adjacency (node_to_tri quad_mesh) 2) /\
  StronglySorted lt (adjacency (node_to_tri quad_mesh) 2).
Proof.
  split; [reflexivity |].
  destruct (node_to_tri_ascending quad_verts quad_conn quad_mesh) with (v := 2%Z)
    as [Hle Hlt]; [vm_compute; reflexivity |].
  split; [exact Hle |]. apply Hlt.
  intros [|[|t]] c0 c1 c2 Ht; simpl in Ht; [| | discriminate];
    injection Ht as <- <- <-; lia.
Defined.

(** C2, as the code has it.  The constructor has no degeneracy check: it
    raises only [IndexError], and only on a vertex index out of range;
    otherwise it stores n_raw / |n_raw| for every triangle, and for a
    triangle whose n_raw is zero in each component that normal is NaN in
    each component. *)
Theorem Mesh_init_divides_unguarded (vs : list (vec float)) (cs : list (Z * Z * Z)) :
  (indices_valid vs cs -> exists m, Mesh_init vs cs = Return m) /\
  (forall e, Mesh_init vs cs = Raise e -> e = IndexError) /\
  (forall m i c0 c1 c2 p0 p1 p2,
      Mesh_init vs cs = Return m ->
      cs !! i = Some (c0, c1, c2) ->
      np_getitem vs c0 = Return p0 -> np_getitem vs c1 = Return p1 ->
      np_getitem vs c2 = Return p2 ->
      let n := cross (vsub p1 p0) (vsub p2 p0) in
      normals m !! i = Some (vdiv n (norm n)) /\
      (is_zero n.1.1 /\ is_zero n.1.2 /\ is_zero n.2 ->
       normals m !! i = Some ((nan, nan, nan) : vec float))).
Proof.
  split; [apply Mesh_init_total |]. split; [apply Mesh_init_Raise |].
  intros m i c0 c1 c2 p0 p1 p2 Hm Hc H0 H1 H2 n.
  apply Mesh_init_spec in Hm as (Hv & Hcs & Hwf & _). subst vs cs.
  destruct (wf_triangles m Hwf i) as (a0 & a1 & a2 & q0 & q1 & q2 & Ha & G0 & G1 & G2 & Hn).
  { by apply lookup_lt_Some in Hc. }
  assert (a0 = c0 /\ a1 = c1 /\ a2 = c2) as (-> & -> & ->) by (split_and!; congruence).
  assert (q0 = p0 /\ q1 = p1 /\ q2 = p2) as (-> & -> & ->) by (split_and!; congruence).
  split; [exact Hn |]. intros Hz. rewrite Hn. unfold unit_normal. fold n.
  destruct n as [[n0 n1] n2]. simpl in Hz.
  destruct Hz as ([-> | ->] & [-> | ->] & [-> | ->]); vm_compute; reflexivity.
Qed.

(** C2 fails on the code: three collinear vertices make a mesh, whose one
    normal is NaN. *)
Lemma degenerate_triangle_accepted :
  cross (vsub (1, 0, 0)%float (0, 0, 0)%float) (vsub (2, 0, 0)%float (0, 0, 0)%float)
    = ((0, 0, 0) : vec float)%float /\
  exists m, Mesh_init flat_verts flat_conn = Return m /\ normals m = [(nan, nan, nan)].
Proof. split; [vm_compute; reflexivity |]. eexists. split; vm_compute; reflexivity. Qed.

(** * project_new_point *)

(** C3, as the code has it.  A call never changes [verts], [connectivity],
    [normals] or the spatial index, and what [node_to_tri] reads for any
    vertex stays the same.  A call that does not raise UnconnectedVertex
    leaves the mesh as it was; a call whose nearest vertex is no key of
    [node_to_tri] raises UnconnectedVertex and leaves that vertex in the
    dict with an empty list. *)
Theorem project_frame {F : Type} {SF : Scalar F} (m : Mesh F) (p : vec F) :
  let m' := fst (project_new_point m p) in
  let node := tree_query (tree m) p in
  verts m' = verts m /\ connectivity m' = connectivity m /\
  normals m' = normals m /\ tree m' = tree m /\
  (forall v, adjacency (node_to_tri m') v = adjacency (node_to_tri m) v) /\
  (snd (project_new_point m p) <> Raise UnconnectedVertex -> m' = m) /\
  (node_to_tri m !! node = None ->
   snd (project_new_point m p) = Raise UnconnectedVertex /\
   node_to_tri m' = <[node := []]> (node_to_tri m)).
Proof.
  intros m' node. subst m'.
  pose proof (project_raises_or_untouched m p) as Hcase. fold node in Hcase.
  rewrite project_new_point_unfold in *. simpl in *. fold node.
  split_and!; try done.
  - intros v. apply adjacency_dd_getitem.
  - intros Hr. destruct Hcase as [Hc|Hc]; [done | by apply touched_present].
  - intros Hnone. split; [| by apply touched_absent].
    unfold adjacency. by rewrite Hnone.
Qed.

(** C3 fails on the code: on a mesh with a vertex no triangle names, the
    call for that vertex raises and leaves a new key in [node_to_tri]. *)
Lemma project_writes_node_to_tri :
  Mesh_init stray_verts stray_conn = Return stray_mesh /\
  snd (project_new_point stray_mesh (3, 3, 3)%float) = Raise UnconnectedVertex /\
  node_to_tri stray_mesh !! 3%Z = None /\
  node_to_tri (fst (project_new_point stray_mesh (3, 3, 3)%float)) !! 3%Z = Some [] /\
  fst (project_new_point stray_mesh (3, 3, 3)%float) <> stray_mesh.
Proof.
  assert (node_to_tri (fst (project_new_point stray_mesh (3, 3, 3)%float)) !! 3%Z
          = Some []) as Hafter by (vm_compute; reflexivity).
  split_and!; try (vm_compute; reflexivity).
  intros Heq. rewrite Heq in Hafter. vm_compute in Hafter. discriminate.
Qed.

(** C5. On a constructed mesh the call raises UnconnectedVertex exactly
    when the nearest vertex has no incident triangle, and in every other
    case returns a point and a triangle index. *)
Theorem project_raises_iff_unconnected {F : Type} {SF : Scalar F}
    (vs : list (vec F)) (cs : list (Z * Z * Z)) (m : Mesh F) (p : vec F) :
  Mesh_init vs cs = Return m ->
  let triangles := adjacency (node_to_tri m) (tree_query (tree m) p) in
  (snd (project_new_point m p) = Raise UnconnectedVertex <-> triangles = []) /\
  (triangles <> [] -> exists q t, snd (project_new_point m p) = Return (q, t)).
Proof.
  intros H T. apply Mesh_init_spec in H as (_ & _ & Hwf & _).
  destruct (project_cases m p Hwf) as [[HT Hr]|[HT (q & t & Hr & _)]]; fold T in HT.
  - split; [done |]. intros Hne. done.
  - split; [| eauto]. rewrite Hr. split; [discriminate | done].
Qed.

Lemma project_raises_iff_unconnected_witness :
  let triangles :=
    adjacency (node_to_tri quad_mesh) (tree_query (tree quad_mesh) (0.5, 0.5, 5)%float) in
  (snd (project_new_point quad_mesh (0.5, 0.5, 5)%float) = Raise UnconnectedVertex
   <-> triangles = []) /\
  (triangles <> [] ->
   exists q t, snd (project_new_point quad_mesh (0.5, 0.5, 5)%float) = Return (q, t)).
Proof.
  apply (project_raises_iff_unconnected quad_verts quad_conn quad_mesh).
  vm_compute. reflexivity.
Defined.




(** C7. The planar quad of the spec, in binary64: the query above the
    shared diagonal comes back as (0.5, 0.5, 0) in triangle 0, and the
    query (0.2, 0.2, 3) as (0.2, 0.2, 0) in triangle 0. *)
Theorem quad_scenario :
  Mesh_init quad_verts quad_conn = Return quad_mesh /\
  snd (project_new_point quad_mesh (0.5, 0.5, 5)%float)
    = Return ((0.5, 0.5, 0)%float, 0%Z) /\
  snd (project_new_point quad_mesh (0.2, 0.2, 3)%float)
    = Return ((0.2, 0.2, 0)%float, 0%Z).
Proof. split_and!; vm_compute; reflexivity. Qed.

(** Whichever of the four vertices, all at the same distance from the
    query above the diagonal, the index reports, the loop ends at
    (0.5, 0.5, 0) in triangle 0 or triangle 1. *)
Lemma quad_diagonal_any_nearest (node : Z) :
  node ∈ [0; 1; 2; 3]%Z ->
  let T := adjacency (node_to_tri quad_mesh) node in
  exists CPP t,
    pre_project quad_mesh node T (0.5, 0.5, 5)%float = Return (0.5, 0.5, 0)%float /\
    plane_distances quad_mesh (0.5, 0.5, 0)%float T = Return CPP /\
    search quad_mesh (0.5, 0.5, 0)%float T CPP (argsort (map s_abs CPP)) None
      = Return ((0.5, 0.5, 0)%float, t) /\
    (t = 0 \/ t = 1)%Z.
Proof.
  intros Hnode. repeat (apply elem_of_cons in Hnode as [->|Hnode]);
    [| | | | by apply not_elem_of_nil in Hnode];
    eexists _, _; split_and!; try (vm_compute; reflexivity); auto.
Qed.

(** C4.  Let pre be the pre-projection of the query point onto the plane
    through the answered vertex across the normalised sum of the normals
    around it, d_t = (pre - p_a) . normal(t) for each candidate t, and the
    order that of argsort on |d_t|: every candidate index once, |d_t|
    ascending, equal keys in whatever order numpy leaves them.  Whenever
    some candidate of the order passes the test (sign_r >= 0, sign_t >= 0,
    r <= 1, t <= 1, r + t <= 1.001 on its point pre - d_t normal(t)), the
    call returns the point and the triangle of the first candidate of the
    order that passes it: every candidate before it fails the test, and
    none after it is returned. *)
Theorem project_returns_first_accepted {F : Type} {SF : Scalar F}
    (sort : list F -> list nat) (vs : list (vec F)) (cs : list (Z * Z * Z)) (m : Mesh F)
    (node : Z) (p pre : vec F) (ds : list F) (k o t : nat) (q : vec F) :
  is_argsort sort ->
  Mesh_init vs cs = Return m ->
  let T := adjacency (node_to_tri m) node in
  is_pre_projection m node T p pre ->
  is_plane_distances m T pre ds ->
  let order := sort (map s_abs ds) in
  order !! k = Some o ->
  accepted_at m T pre ds o t q ->
  project_new_point m p = project_body argsort m (tree_query (tree m) p) p /\
  order ≡ₚ seq 0 (length T) /\
  StronglySorted (key_le (map s_abs ds)) order /\
  exists k1 o1 t1 q1,
    k1 <= k /\ order !! k1 = Some o1 /\
    accepted_at m T pre ds o1 t1 q1 /\
    (forall j o', j < k1 -> order !! j = Some o' -> rejected_at m T pre ds o') /\
    snd (project_body sort m node p) = Return (q1, Z.of_nat t1).
Proof.
  intros Hsort Hinit T Hpre Hds order Hk Hacc.
  apply Mesh_init_spec in Hinit as (_ & _ & Hwf & _).
  pose proof Hds as [Hlen _].
  apply is_pre_projection_spec in Hpre. apply is_plane_distances_spec in Hds.
  destruct (Hsort (map s_abs ds)) as [Hperm Hsorted]. fold order in Hperm, Hsorted.
  rewrite length_map, Hlen in Hperm.
  split; [apply project_new_point_body |]. split; [done |]. split; [done |].
  assert (forall o', o' ∈ order ->
            exists i' q' b', candidate m pre T ds o' = Return (i', q', b')) as Htot.
  { intros o' Ho'. rewrite Hperm, elem_of_seq in Ho'.
    destruct (candidate_total m node pre ds o' Hwf) as (i' & q' & b' & Hc & _); [done | lia |].
    eauto. }
  destruct (Htot o) as (i & r & b & Hc); [apply list_elem_of_lookup; eauto |].
  destruct (candidate_accepted m pre T ds o i r b Hc) as [_ Huniq].
  destruct (Huniq t q Hacc) as (-> & -> & ->).
  destruct (search_first m pre T ds order None k o i r Htot Hk Hc)
    as (k1 & o1 & t1 & q1 & Hle & Hk1 & Hc1 & Hrej & Hs).
  exists k1, o1, t1, q1. split_and!; try done.
  - by apply (candidate_accepted m pre T ds o1 t1 q1 true Hc1).
  - intros j o' Hj Ho'. destruct (Hrej j o' Hj Ho') as (i' & r' & Hc').
    by apply (candidate_rejected m pre T ds o' i' r').
  - rewrite project_body_unfold. simpl. fold T.
    assert (length T <> 0) as Hlen0.
    { destruct Hacc as (? & ? & HT & _). apply lookup_lt_Some in HT. lia. }
    apply Nat.eqb_neq in Hlen0. rewrite Hlen0, Hpre. simpl. rewrite Hds. simpl. exact Hs.
Qed.

(** On the cube corner the order is [0; 2; 1]: triangles 0 and 2 fail the
    test and triangle 1, last in the order, is returned. *)
Lemma project_returns_first_accepted_witness :
  (argsort (map s_abs corner_ds) = [0; 2; 1] /\
   tree_query (tree corner_mesh) corner_point = 0%Z /\
   snd (project_new_point corner_mesh corner_point)
     = Return ((0, 0.19999999999999996, 0.099999999999999978)%float, 1%Z)) /\
  let T := adjacency (node_to_tri corner_mesh) 0 in
  let order := argsort (map s_abs corner_ds) in
  project_new_point corner_mesh corner_point
    = project_body argsort corner_mesh (tree_query (tree corner_mesh) corner_point)
        corner_point /\
  order ≡ₚ seq 0 (length T) /\
  StronglySorted (key_le (map s_abs corner_ds)) order /\
  exists k1 o1 t1 q1,
    k1 <= 2 /\ order !! k1 = Some o1 /\
    accepted_at corner_mesh T corner_pre corner_ds o1 t1 q1 /\
    (forall j o', j < k1 -> order !! j = Some o' ->
                  rejected_at corner_mesh T corner_pre corner_ds o') /\
    snd (project_body argsort corner_mesh 0 corner_point) = Return (q1, Z.of_nat t1).
Proof.
  split; [split_and!; vm_compute; reflexivity |].
  apply (project_returns_first_accepted argsort corner_verts corner_conn corner_mesh 0
           corner_point corner_pre corner_ds 2 1 1
           (0, 0.19999999999999996, 0.099999999999999978)%float).
  - apply argsort_is_argsort.
  - vm_compute. reflexivity.
  - exists [(0, 0, 1); (1, 0, 0); (0, 1, 0)]%float, (0, 0, 0)%float.
    split_and!; vm_compute; reflexivity.
  - split; [reflexivity |]. intros o t Ht.
    destruct o as [|[|[|o]]]; try (vm_compute in Ht; discriminate);
      vm_compute in Ht; injection Ht as <-.
    + exists (0, 0, 0)%float, (1, 0, 0)%float, (0, 1, 0)%float, (0, 0, 1)%float.
      split_and!; vm_compute; reflexivity.
    + exists (0, 0, 0)%float, (0, 1, 0)%float, (0, 0, 1)%float, (1, 0, 0)%float.
      split_and!; vm_compute; reflexivity.
    + exists (0, 0, 0)%float, (0, 0, 1)%float, (1, 0, 0)%float, (0, 1, 0)%float.
      split_and!; vm_compute; reflexivity.
  - vm_compute. reflexivity.
  - exists (-0.30000000000000004)%float, (1, 0, 0)%float.
    split_and!; try (vm_compute; reflexivity).
    exists (0, 0, 0)%float, (0, 1, 0)%float, (0, 0, 1)%float.
    split; [vm_compute; reflexivity |]. cbv zeta. split_and!; vm_compute; reflexivity.
Defined.




(** C8, in exact arithmetic.  Over the reals, for a vertex that is the
    nearest vertex to its own position and has incident triangles (none
    degenerate, summed normal not zero), the call at the position of the
    vertex returns that very position and a triangle incident to the
    vertex. *)
Theorem vertex_self_projection_exact (vs : list (vec R)) (cs : list (Z * Z * Z))
    (m : Mesh R) (v : nat) (pv : vec R) :
  Mesh_init vs cs = Return m ->
  vs !! v = Some pv ->
  tree_query (tree m) pv = Z.of_nat v ->
  let T := adjacency (node_to_tri m) (Z.of_nat v) in
  T <> [] ->
  (forall t p0 p1 p2, t ∈ T -> corners m t = Return (p0, p1, p2) ->
                      norm (cross (vsub p1 p0) (vsub p2 p0)) <> 0%R) ->
  (forall rows, mapM (getitem (normals m)) T = Return rows -> np_sum rows <> vzero) ->
  exists t, t ∈ T /\ snd (project_new_point m pv) = Return (pv, Z.of_nat t).
Proof.
  intros Hinit Hv Hnear T Hne _ _.
  apply Mesh_init_spec in Hinit as (Hvs & _ & Hwf & _). subst vs.
  destruct (project_at_vertex m pv Hwf) as (t & Hr & Ht).
  - rewrite Hnear, np_getitem_nonneg. by apply getitem_Return.
  - by rewrite Hnear.
  - rewrite Hnear in Ht. eauto.
Qed.

Lemma vertex_self_projection_exact_witness :
  exists t, t ∈ adjacency (node_to_tri tri_mesh) 0 /\
            snd (project_new_point tri_mesh (0, 0, 0)%R) = Return ((0, 0, 0)%R, Z.of_nat t).
Proof.
  assert (R_sqrt.sqrt (0 * 0 + 0 * 0 + 1 * 1) = 1%R) as Hsqrt.
  { replace (0 * 0 + 0 * 0 + 1 * 1)%R with 1%R by lra. apply sqrt_1. }
  apply (vertex_self_projection_exact tri_verts tri_conn tri_mesh 0 (0, 0, 0)%R).
  - reflexivity.
  - reflexivity.
  - cbn [tree tri_mesh tri_verts tree_query nearest_scan]. vec_unfold.
    Rltb_decide. reflexivity.
  - discriminate.
  - intros t p0 p1 p2 Ht Hc.
    apply list_elem_of_singleton in Ht as ->.
    injection Hc as <- <- <-. vec_unfold.
    replace ((0 - 0) * (0 - 0) - (0 - 0) * (1 - 0))%R with 0%R by lra.
    replace ((0 - 0) * (0 - 0) - (1 - 0) * (0 - 0))%R with 0%R by lra.
    replace ((1 - 0) * (1 - 0) - (0 - 0) * (0 - 0))%R with 1%R by lra.
    rewrite Hsqrt. lra.
  - intros rows Hrows.
    change (Return [unit_normal (0, 0, 0)%R (1, 0, 0)%R (0, 1, 0)%R] = Return rows) in Hrows.
    injection Hrows as <-. cbn [np_sum fold_left]. vec_unfold.
    replace ((0 - 0) * (0 - 0) - (0 - 0) * (1 - 0))%R with 0%R by lra.
    replace ((0 - 0) * (0 - 0) - (1 - 0) * (0 - 0))%R with 0%R by lra.
    replace ((1 - 0) * (1 - 0) - (0 - 0) * (0 - 0))%R with 1%R by lra.
    rewrite Hsqrt. intros [= _ _ H]. lra.
Defined.

(** C8 fails on the code in binary64.  Vertex 0 of the mesh [uf] is the
    nearest vertex to its own position and has two triangles, neither
    degenerate; their normals sum to (0, 0, -1e-170), which is not zero,
    but the square of 1e-170 underflows, the norm of the sum is 0, the
    vertex normal and the pre-projection are NaN, no candidate passes the
    test, and the call at the position of the vertex returns a NaN point
    and -1. *)
Lemma vertex_projection_misses_binary64 :
  exists m,
    Mesh_init uf_verts uf_conn = Return m /\
    uf_verts !! 0 = Some (0, 0, 0)%float /\
    tree_query (tree m) (0, 0, 0)%float = 0%Z /\
    adjacency (node_to_tri m) 0 = [0; 1] /\
    corners m 0 = Return ((0, 0, 0), (0, 1, 0), (0, 0, 1))%float /\
    corners m 1 = Return ((0, 0, 0), (0, 1, 0), (1e-170, 0, -1))%float /\
    cross (vsub (0, 1, 0)%float (0, 0, 0)%float) (vsub (0, 0, 1)%float (0, 0, 0)%float)
      = ((1, 0, 0) : vec float)%float /\
    cross (vsub (0, 1, 0)%float (0, 0, 0)%float) (vsub (1e-170, 0, -1)%float (0, 0, 0)%float)
      = ((-1, 0, -1e-170) : vec float)%float /\
    normals m = [(1, 0, 0); (-1, 0, -1e-170)]%float /\
    np_sum (normals m) = ((0, 0, -1e-170) : vec float)%float /\
    norm (np_sum (normals m)) = 0%float /\
    snd (project_new_point m (0, 0, 0)%float) = Return ((nan, nan, nan), (-1)%Z).
Proof. eexists. split_and!; vm_compute; reflexivity. Qed.

(** * Further properties of the constructor and of a call *)

(** ** Errors of the loops *)

Lemma mapM_Raise {A B} (f : A -> result B) (P : exn -> Prop) (l : list A) (e : exn) :
  (forall a e', f a = Raise e' -> P e') -> mapM f l = Raise e -> P e.
Proof.
  intros Hf. induction l as [|a l IH]; simpl; intros H; [discriminate |].
  apply bind_Raise in H as [H|(b & _ & H)]; [eauto |].
  apply bind_Raise in H as [H|(bs & _ & H)]; [eauto | discriminate].
Qed.

Lemma np_pos_is_Some (n : nat) (k : Z) : is_Some (np_pos n k) <-> in_range n k.
Proof.
  unfold np_pos, in_range.
  destruct (0 <=? k)%Z eqn:H0; destruct (k <? Z.of_nat n)%Z eqn:H1;
    destruct (- Z.of_nat n <=? k)%Z eqn:H2; destruct (k <? 0)%Z eqn:H3; simpl;
    rewrite ?Z.leb_le, ?Z.leb_gt, ?Z.ltb_lt, ?Z.ltb_ge in *;
    (split; [intros [x Hx]; try discriminate; lia | intros ?; try lia; eauto]).
Qed.

Lemma indices_valid_in_range {F : Type} (vs : list (vec F)) (cs : list (Z * Z * Z)) :
  indices_valid vs cs <-> all_in_range (length vs) cs.
Proof.
  unfold all_in_range, indices_valid. split; intros H t c0 c1 c2 Hc;
    specialize (H t c0 c1 c2 Hc); by rewrite ?np_pos_is_Some in *.
Qed.

Lemma np_getitem_negative {A} (a : list A) (c : Z) :
  (c < 0)%Z -> (- Z.of_nat (length a) <= c)%Z ->
  np_getitem a c = getitem a (Z.to_nat (c + Z.of_nat (length a))).
Proof.
  intros Hneg Hlow. unfold np_getitem.
  replace (0 <=? c)%Z with false by (symmetry; apply Z.leb_gt; lia). simpl.
  replace (- Z.of_nat (length a) <=? c)%Z with true by (symmetry; apply Z.leb_le; lia).
  replace (c <? 0)%Z with true by (symmetry; apply Z.ltb_lt; lia). done.
Qed.

Lemma elem_of_triple (v c0 c1 c2 : Z) :
  v ∈ [c0; c1; c2] <-> c0 = v \/ c1 = v \/ c2 = v.
Proof.
  rewrite !elem_of_cons, elem_of_nil.
  split; [intros [H|[H|[H|[]]]] | intros [H|[H|H]]]; auto.
Qed.

(** ** The constructor, once more *)

Section MoreConstruction.
Context {F : Type} {SF : Scalar F}.

Lemma Mesh_init_Return_valid (vs : list (vec F)) (cs : list (Z * Z * Z)) (m : Mesh F) :
  Mesh_init vs cs = Return m -> indices_valid vs cs.
Proof.
  intros H i c0 c1 c2 Hc. apply Mesh_init_spec in H as (<- & <- & Hwf & _).
  destruct (wf_triangles m Hwf i) as (a0 & a1 & a2 & p0 & p1 & p2 & Ha & H0 & H1 & H2 & _).
  { by apply lookup_lt_Some in Hc. }
  assert (a0 = c0 /\ a1 = c1 /\ a2 = c2) as (-> & -> & ->) by (split_and!; congruence).
  apply np_getitem_Return in H0 as (? & ? & _), H1 as (? & ? & _), H2 as (? & ? & _).
  eauto.
Qed.

(** Occurrences of triangle [t] in the list of vertex [v]. *)
Lemma count_occ_hits (i t : nat) (c v : Z) :
  count_occ Nat.eq_dec (hits i c v) t =
  if decide (i = t) then count_occ Z.eq_dec [c] v else 0.
Proof.
  unfold hits. simpl. destruct (decide (c = v)) as [->|Hc]; simpl.
  - destruct (Nat.eq_dec i t), (decide (i = t)), (Z.eq_dec v v); congruence.
  - destruct (decide (i = t)), (Z.eq_dec c v); congruence.
Qed.

Lemma count_occ_incident (i : nat) (conn : list (Z * Z * Z)) (v : Z) (t : nat) :
  count_occ Nat.eq_dec (incident i conn v) t =
  if decide (i <= t) then
    match conn !! (t - i) with
    | Some (c0, c1, c2) => count_occ Z.eq_dec [c0; c1; c2] v
    | None => 0
    end
  else 0.
Proof.
  revert i. induction conn as [|[[a b] c] conn IH]; intros i; simpl.
  - by destruct (decide (i <= t)).
  - rewrite !count_occ_app, !count_occ_hits, IH.
    destruct (decide (i = t)) as [->|Hne].
    + rewrite Nat.sub_diag. simpl.
      destruct (decide (t <= t)); [| lia]. destruct (decide (S t <= t)); [lia |].
      destruct (Z.eq_dec a v), (Z.eq_dec b v), (Z.eq_dec c v); lia.
    + destruct (decide (i <= t)), (decide (S i <= t)); try lia.
      replace (t - i) with (S (t - S i)) by lia. simpl. lia.
Qed.

Lemma incident_app (i : nat) (a b : list (Z * Z * Z)) (v : Z) :
  incident i (a ++ b) v = incident i a v ++ incident (i + length a) b v.
Proof.
  revert i. induction a as [|[[c0 c1] c2] a IH]; intros i; simpl.
  - by rewrite Nat.add_0_r.
  - rewrite IH, <- !app_assoc. by replace (S i + length a) with (i + S (length a)) by lia.
Qed.

(** The triangle of a constructed mesh, as the constructor and a call read it. *)
Lemma wf_triangle (m : Mesh F) (i : nat) (p0 p1 p2 : vec F) :
  well_formed m -> corners m i = Return (p0, p1, p2) ->
  normals m !! i = Some (unit_normal p0 p1 p2).
Proof.
  intros Hwf Hc. apply corners_spec in Hc as (c0 & c1 & c2 & Hc & H0 & H1 & H2).
  destruct (wf_triangles m Hwf i) as (a0 & a1 & a2 & q0 & q1 & q2 & Ha & G0 & G1 & G2 & Hn).
  { by apply lookup_lt_Some in Hc. }
  assert (a0 = c0 /\ a1 = c1 /\ a2 = c2) as (-> & -> & ->) by (split_and!; congruence).
  assert (q0 = p0 /\ q1 = p1 /\ q2 = p2) as (-> & -> & ->) by (split_and!; congruence).
  done.
Qed.

End MoreConstruction.

(** ** A call, once more *)

Section MoreProjection.
Context {F : Type} {SF : Scalar F}.

Lemma tree_query_nonneg (pts : list (vec F)) (p : vec F) : (0 <= tree_query pts p)%Z.
Proof. destruct pts; simpl; lia. Qed.

Lemma candidate_Raise (m : Mesh F) pre T CPP o e :
  candidate m pre T CPP o = Raise e -> e = IndexError.
Proof.
  unfold candidate, corners. intros H.
  repeat (apply bind_Raise in H as [H|(? & _ & H)];
          [first [apply getitem_Raise in H; tauto | by apply np_getitem_Raise in H | idtac] |]).
  all: try discriminate.
  all: repeat match goal with
         | H : (let '(_, _) := ?x in _) = _ |- _ => destruct x
         end.
  all: repeat (apply bind_Raise in H as [H|(? & _ & H)];
          [first [apply getitem_Raise in H; tauto | by apply np_getitem_Raise in H] |]).
  all: discriminate.
Qed.

Lemma search_Raise (m : Mesh F) pre T CPP order q0 e :
  search m pre T CPP order q0 = Raise e ->
  e = IndexError \/ (e = UnboundLocalError /\ order = [] /\ q0 = None).
Proof.
  revert q0. induction order as [|o order IH]; intros q0; simpl.
  - destruct q0; [discriminate |]. intros [= <-]. auto.
  - intros H. apply bind_Raise in H as [H|([[i q] b] & _ & H)].
    + left. by apply candidate_Raise in H.
    + destruct b; [discriminate |]. apply IH in H as [H|(_ & _ & H)]; [by left | discriminate].
Qed.

Lemma pre_project_Raise (m : Mesh F) node T p e :
  pre_project m node T p = Raise e -> e = IndexError.
Proof.
  unfold pre_project. intros H.
  apply bind_Raise in H as [H|(rows & _ & H)].
  - revert H. apply (mapM_Raise _ (fun e => e = IndexError)).
    intros a e' Ha. apply getitem_Raise in Ha. tauto.
  - apply bind_Raise in H as [H|(? & _ & H)]; [by apply np_getitem_Raise in H | discriminate].
Qed.

Lemma plane_distances_Raise (m : Mesh F) pre T e :
  plane_distances m pre T = Raise e -> e = IndexError.
Proof.
  unfold plane_distances. apply (mapM_Raise _ (fun e => e = IndexError)).
  intros a e' H.
  apply bind_Raise in H as [H|([[c0 c1] c2] & _ & H)]; [apply getitem_Raise in H; tauto |].
  apply bind_Raise in H as [H|(? & _ & H)]; [by apply np_getitem_Raise in H |].
  apply bind_Raise in H as [H|(? & _ & H)]; [apply getitem_Raise in H; tauto | discriminate].
Qed.

(** A returned triangle index is that of an accepted candidate. *)
Lemma search_Return (m : Mesh F) pre T CPP order q0 (q : vec F) (t : Z) :
  search m pre T CPP order q0 = Return (q, t) ->
  t = (-1)%Z \/
  exists o i, o ∈ order /\ candidate m pre T CPP o = Return (i, q, true) /\ t = Z.of_nat i.
Proof.
  revert q0. induction order as [|o order IH]; intros q0; simpl.
  - destruct q0; [intros [= <- <-]; by left | discriminate].
  - intros H. apply bind_Return in H as ([[i q'] b] & Hc & H). destruct b.
    + injection H as <- <-. right. exists o, i. split; [left | done].
    + apply IH in H as [->|(o' & i' & Ho' & Hc' & ->)]; [by left | right].
      exists o', i'. split; [by right | done].
Qed.

(** A call that returns triangle [i] has accepted a candidate for it. *)
Lemma project_Return_hit (m : Mesh F) (p q : vec F) (i : nat) :
  snd (project_new_point m p) = Return (q, Z.of_nat i) ->
  let node := tree_query (tree m) p in
  let T := adjacency (node_to_tri m) node in
  exists pre CPP o,
    pre_project m node T p = Return pre /\
    plane_distances m pre T = Return CPP /\
    candidate m pre T CPP o = Return (i, q, true).
Proof.
  intros H node T. rewrite project_new_point_unfold in H. simpl in H.
  fold node in H. fold T in H.
  destruct (length T =? 0)%nat; [discriminate |].
  apply bind_Return in H as (pre & Hpre & H).
  apply bind_Return in H as (CPP & HCPP & H).
  apply search_Return in H as [H|(o & i' & _ & Hc & Hi)]; [lia |].
  apply Nat2Z.inj in Hi as <-. by exists pre, CPP, o.
Qed.

(** The projected point of a candidate, from the pre-projected point. *)
Lemma candidate_point (m : Mesh F) (pre : vec F) (T : list nat) (CPP : list F)
    (o i : nat) (q p0 p1 p2 : vec F) (b : bool) :
  well_formed m ->
  plane_distances m pre T = Return CPP ->
  candidate m pre T CPP o = Return (i, q, b) ->
  corners m i = Return (p0, p1, p2) ->
  let n := unit_normal p0 p1 p2 in
  q = vsub pre (scalev (dot (vsub pre p0) n) n) /\
  b = in_triangle (vsub p1 p0) (vsub p2 p0) (vsub q p0).
Proof.
  intros Hwf HCPP Hcand Hc. cbv zeta.
  pose proof (wf_triangle m i p0 p1 p2 Hwf Hc) as Hn.
  apply candidate_spec in Hcand
    as (d & n' & q0 & q1 & q2 & HT & Hd & Hn' & Hc' & -> & ->).
  assert (q0 = p0 /\ q1 = p1 /\ q2 = p2) as (-> & -> & ->) by (split_and!; congruence).
  assert (n' = unit_normal p0 p1 p2) as -> by congruence.
  destruct (plane_distances_lookup m pre T CPP o i HCPP HT)
    as (c0 & c1 & c2 & r0 & n'' & Hconn & Hr0 & Hn'' & Hd').
  apply corners_spec in Hc as (a0 & a1 & a2 & Ha & G0 & G1 & G2).
  assert (a0 = c0) as -> by congruence.
  assert (r0 = p0) as -> by congruence.
  assert (n'' = unit_normal p0 p1 p2) as -> by congruence.
  assert (d = dot (vsub pre p0) (unit_normal p0 p1 p2)) as -> by congruence.
  done.
Qed.

(** ** One call after another *)

Lemma candidate_ext (m m' : Mesh F) pre T CPP o :
  verts m' = verts m -> connectivity m' = connectivity m -> normals m' = normals m ->
  candidate m' pre T CPP o = candidate m pre T CPP o.
Proof. intros Hv Hc Hn. unfold candidate, corners. by rewrite Hv, Hc, Hn. Qed.

Lemma search_ext (m m' : Mesh F) pre T CPP order q0 :
  verts m' = verts m -> connectivity m' = connectivity m -> normals m' = normals m ->
  search m' pre T CPP order q0 = search m pre T CPP order q0.
Proof.
  intros Hv Hc Hn. revert q0. induction order as [|o order IH]; intros q0; simpl; [done |].
  rewrite (candidate_ext m m') by done.
  destruct (candidate m pre T CPP o) as [[[i q] b]|e]; simpl; [| done].
  destruct b; [done | apply IH].
Qed.

(** The result of a call reads the mesh through its arrays and through
    what [node_to_tri] reads. *)
Lemma project_result_ext (m m' : Mesh F) (p : vec F) :
  verts m' = verts m -> connectivity m' = connectivity m -> normals m' = normals m ->
  tree m' = tree m ->
  (forall v, adjacency (node_to_tri m') v = adjacency (node_to_tri m) v) ->
  snd (project_new_point m' p) = snd (project_new_point m p).
Proof.
  intros Hv Hc Hn Ht Ha. rewrite !project_new_point_unfold. simpl.
  rewrite Ht, Ha.
  destruct (length _ =? 0)%nat; [done |].
  unfold pre_project, plane_distances. rewrite Hv, Hc, Hn.
  destruct (mapM _ _) as [rows|e]; simpl; [| done].
  destruct (np_getitem _ _) as [pv|e]; simpl; [| done].
  destruct (mapM _ _) as [CPP|e]; simpl; [| done].
  by apply search_ext.
Qed.

Lemma project_fst (m : Mesh F) (p : vec F) :
  fst (project_new_point m p) = touched m (tree_query (tree m) p).
Proof. by rewrite project_new_point_unfold. Qed.

Lemma adjacency_touched (m : Mesh F) (a v : Z) :
  adjacency (node_to_tri (touched m a)) v = adjacency (node_to_tri m) v.
Proof. apply adjacency_dd_getitem. Qed.

Lemma touched_comm (m : Mesh F) (a b : Z) :
  touched (touched m a) b = touched (touched m b) a.
Proof.
  unfold touched. simpl. f_equal. unfold dd_getitem.
  destruct (node_to_tri m !! a) as [la|] eqn:Ha, (node_to_tri m !! b) as [lb|] eqn:Hb;
    simpl; rewrite ?Ha, ?Hb; simpl; try done.
  - destruct (decide (b = a)) as [->|Hne]; [congruence |].
    by rewrite lookup_insert_ne, Ha by done.
  - destruct (decide (a = b)) as [->|Hne]; [congruence |].
    by rewrite lookup_insert_ne, Hb by done.
  - destruct (decide (a = b)) as [->|Hne].
    + by rewrite lookup_insert_eq.
    + rewrite !lookup_insert_ne, Ha, Hb by done. simpl. by apply insert_insert_ne.
Qed.

Lemma touched_idemp (m : Mesh F) (a : Z) : touched (touched m a) a = touched m a.
Proof.
  unfold touched. simpl. f_equal. unfold dd_getitem.
  destruct (node_to_tri m !! a) as [la|] eqn:Ha; simpl; [by rewrite Ha |].
  by rewrite lookup_insert_eq.
Qed.

End MoreProjection.

(** ** The plane and the inside of a triangle, in exact arithmetic *)

Lemma norm_sqr (a : vec R) : (norm a * norm a = dot a a)%R.
Proof. unfold norm. simpl. apply sqrt_sqrt, dot_self_nonneg. Qed.

Lemma norm_zero_inv (a : vec R) : norm a = 0%R -> a = vzero.
Proof.
  intros H. pose proof (norm_sqr a) as Hs. rewrite H in Hs.
  destruct a as [[a0 a1] a2]. vec_unfold.
  assert (a0 = 0 /\ a1 = 0 /\ a2 = 0)%R as (-> & -> & ->) by (split_and!; nra). done.
Qed.

Lemma norm_nonzero (a : vec R) : a <> vzero -> norm a <> 0%R.
Proof. intros Ha H. by apply norm_zero_inv in H. Qed.

Lemma norm_scalev (a : R) (x : vec R) : norm (scalev a x) = (Rabs a * norm x)%R.
Proof.
  destruct x as [[x0 x1] x2]. vec_unfold.
  replace (a * x0 * (a * x0) + a * x1 * (a * x1) + a * x2 * (a * x2))%R
    with (Rsqr a * (x0 * x0 + x1 * x1 + x2 * x2))%R by (unfold Rsqr; ring).
  rewrite sqrt_mult_alt by apply Rle_0_sqr. by rewrite sqrt_Rsqr_abs.
Qed.

Lemma dot_unit (a : vec R) :
  norm a <> 0%R -> dot (vdiv a (norm a)) (vdiv a (norm a)) = 1%R.
Proof.
  intros Hn. pose proof (norm_sqr a) as Hs.
  destruct a as [[a0 a1] a2]. set (s := norm (a0, a1, a2)) in *.
  vec_unfold. replace (a0 / s * (a0 / s) + a1 / s * (a1 / s) + a2 / s * (a2 / s))%R
    with ((a0 * a0 + a1 * a1 + a2 * a2) / (s * s))%R by (field; done).
  rewrite Hs. field. rewrite <- Hs. nra.
Qed.

(** Taking from [x] its part along a normalised [N] leaves nothing along [N]. *)
Lemma dot_reject (x N : vec R) :
  norm N <> 0%R ->
  let n := vdiv N (norm N) in
  dot (vsub x (scalev (dot x n) n)) N = 0%R /\ dot (vsub x (vscale n (dot x n))) N = 0%R.
Proof.
  intros Hn n. subst n. pose proof (norm_sqr N) as Hs.
  destruct x as [[x0 x1] x2], N as [[n0 n1] n2]. set (s := norm (n0, n1, n2)) in *.
  vec_unfold.
  assert (n0 * n0 + n1 * n1 + n2 * n2 = s * s)%R as Hd by lra.
  split.
  - transitivity (((x0 * n0 + x1 * n1 + x2 * n2) * (s * s - (n0 * n0 + n1 * n1 + n2 * n2)))
                  / (s * s))%R; [field; done |]. rewrite Hd. field. done.
  - transitivity (((x0 * n0 + x1 * n1 + x2 * n2) * (s * s - (n0 * n0 + n1 * n1 + n2 * n2)))
                  / (s * s))%R; [field; done |]. rewrite Hd. field. done.
Qed.

Lemma unit_normal_swap (p0 p1 p2 : vec R) :
  unit_normal p0 p2 p1 = vneg (unit_normal p0 p1 p2).
Proof.
  unfold unit_normal. cbv zeta.
  rewrite (norm_cross_swap (vsub p1 p0) (vsub p2 p0)).
  rewrite <- (neg_cross (vsub p2 p0) (vsub p1 p0)).
  generalize (norm (cross (vsub p1 p0) (vsub p2 p0))).
  generalize (cross (vsub p1 p0) (vsub p2 p0)). intros [[a b] c] s.
  vec_unfold. unfold Rdiv. f_equal; [f_equal |]; ring.
Qed.

Lemma vsub_swap (x y z : vec R) : vsub (vsub x y) z = vsub (vsub x z) y.
Proof. vec_destruct. vec_unfold. f_equal; [f_equal |]; ring. Qed.

Lemma vadd_vsub (x p y : vec R) : vsub x p = y -> x = vadd p y.
Proof. vec_destruct. vec_unfold. intros [= H0 H1 H2]. f_equal; [f_equal |]; lra. Qed.

Lemma vdiv_unit (n : vec R) : dot n n = 1%R -> vdiv n (norm n) = n.
Proof.
  intros H. unfold norm. simpl. rewrite H, sqrt_1.
  destruct n as [[n0 n1] n2]. vec_unfold. f_equal; [f_equal |]; field.
Qed.

(** Projecting onto a plane in two steps along its unit normal. *)
Lemma project_twice (p pv p0 n : vec R) :
  dot n n = 1%R ->
  let pre := vsub p (vscale n (dot (vsub p pv) n)) in
  vsub pre (scalev (dot (vsub pre p0) n) n) = vsub p (scalev (dot (vsub p p0) n) n).
Proof.
  intros Hnn pre. subst pre.
  destruct p as [[x0 x1] x2], pv as [[y0 y1] y2], p0 as [[z0 z1] z2], n as [[n0 n1] n2].
  vec_unfold.
  set (k := ((x0 - y0) * n0 + (x1 - y1) * n1 + (x2 - y2) * n2)%R).
  set (K := ((x0 - z0) * n0 + (x1 - z1) * n1 + (x2 - z2) * n2)%R).
  assert (((x0 - n0 * k - z0) * n0 + (x1 - n1 * k - z1) * n1 + (x2 - n2 * k - z2) * n2)
          = K - k)%R as ->.
  { transitivity (K - k * (n0 * n0 + n1 * n1 + n2 * n2))%R; [subst K; ring |].
    rewrite Hnn. ring. }
  f_equal; [f_equal |]; ring.
Qed.

(** A vector of the plane of [u] and [v], on the basis [u], [v]. *)
Lemma plane_decompose (u v w : vec R) :
  let N := cross u v in
  N <> vzero -> dot w N = 0%R ->
  let a := (dot (cross v w) (cross v u) / dot N N)%R in
  let b := (dot (cross u w) (cross u v) / dot N N)%R in
  w = vadd (scalev a u) (scalev b v) /\
  cross v w = scalev a (cross v u) /\ cross u w = scalev b (cross u v).
Proof.
  intros N HN Hw a b.
  assert (dot N N <> 0)%R as Hd.
  { intros H. apply HN, norm_zero_inv. unfold norm. simpl. rewrite H. apply sqrt_0. }
  assert (w = vadd (scalev a u) (scalev b v)) as Hdec.
  { subst a b N. destruct u as [[u0 u1] u2], v as [[v0 v1] v2], w as [[w0 w1] w2].
    vec_unfold.
    set (D := ((u1 * v2 - u2 * v1) * (u1 * v2 - u2 * v1) +
               (u2 * v0 - u0 * v2) * (u2 * v0 - u0 * v2) +
               (u0 * v1 - u1 * v0) * (u0 * v1 - u1 * v0))%R) in *.
    set (W := (w0 * (u1 * v2 - u2 * v1) + w1 * (u2 * v0 - u0 * v2) +
               w2 * (u0 * v1 - u1 * v0))%R) in *.
    f_equal; [f_equal |].
    - apply (Rmult_eq_reg_r D); [| done].
      transitivity (D * w0 - W * (u1 * v2 - u2 * v1))%R; [rewrite Hw; ring |].
      subst D W. field. done.
    - apply (Rmult_eq_reg_r D); [| done].
      transitivity (D * w1 - W * (u2 * v0 - u0 * v2))%R; [rewrite Hw; ring |].
      subst D W. field. done.
    - apply (Rmult_eq_reg_r D); [| done].
      transitivity (D * w2 - W * (u0 * v1 - u1 * v0))%R; [rewrite Hw; ring |].
      subst D W. field. done. }
  split; [done |]. clearbody a b. clear Hw. subst w.
  destruct u as [[u0 u1] u2], v as [[v0 v1] v2]. vec_unfold.
  split; (f_equal; [f_equal |]); ring.
Qed.

(** The acceptance test on a point of the plane of the triangle. *)
Lemma in_triangle_plane (u v w : vec R) :
  cross u v <> vzero -> dot w (cross u v) = 0%R ->
  in_triangle u v w = true ->
  exists a b, w = vadd (scalev a u) (scalev b v) /\
              (0 <= a <= 1 /\ 0 <= b <= 1 /\ a + b <= 1001 / 1000)%R.
Proof.
  intros HN Hw Hin.
  destruct (plane_decompose u v w HN Hw) as (Hdec & Hvw & Huw).
  set (a := (dot (cross v w) (cross v u) / dot (cross u v) (cross u v))%R) in *.
  set (b := (dot (cross u w) (cross u v) / dot (cross u v) (cross u v))%R) in *.
  exists a, b. split; [done |].
  apply in_triangle_exact in Hin as (Hsr & Hst & Hr & Ht & Hrt).
  rewrite Hvw, Huw in *. rewrite !norm_scalev in *.
  rewrite (neg_cross u v) in Hst.
  pose proof (norm_nonzero _ HN) as Hn.
  rewrite (norm_cross_swap u v) in *.
  set (s := norm (cross u v)) in *.
  assert (0 < s)%R as Hs.
  { assert (0 <= s)%R by apply sqrt_pos. lra. }
  assert (dot (cross u v) (cross u v) = s * s)%R as Hss by (symmetry; apply norm_sqr).
  assert (dot (cross v u) (cross v u) = s * s)%R as Hss'.
  { rewrite <- (norm_sqr (cross v u)), (norm_cross_swap u v). done. }
  assert (forall (c : R) (x : vec R), dot (scalev c x) x = c * dot x x)%R as Hlin.
  { intros c [[x0 x1] x2]. vec_unfold. ring. }
  rewrite Hlin, Hss' in Hsr. rewrite Hlin, Hss in Hst.
  clearbody a b.
  assert (0 < s * s)%R as Hpos by (by apply Rmult_lt_0_compat).
  assert (0 <= a)%R as Ha by (apply (Rmult_le_reg_r (s * s)); [done | lra]).
  assert (0 <= b)%R as Hb by (apply (Rmult_le_reg_r (s * s)); [done | lra]).
  rewrite (Rabs_pos_eq a Ha) in *. rewrite (Rabs_pos_eq b Hb) in *.
  assert (a * s / s = a)%R as Ea by (field; lra).
  assert (b * s / s = b)%R as Eb by (field; lra).
  rewrite Ea, Eb in *. lra.
Qed.

(** ** NaN through the arithmetic of binary64 *)

Lemma Prim2SF_nan : Prim2SF nan = S754_nan.
Proof. reflexivity. Qed.

Lemma float_of_nan (x : float) : Prim2SF x = S754_nan -> x = nan.
Proof. intros H. rewrite <- (SF2Prim_Prim2SF x), H. reflexivity. Qed.

Lemma mul_nan_r (x : float) : (x * nan)%float = nan.
Proof.
  apply float_of_nan. rewrite mul_spec, Prim2SF_nan.
  unfold SF64mul, SFmul. by destruct (Prim2SF x) as [| | |[] ? ?].
Qed.

Lemma mul_nan_l (x : float) : (nan * x)%float = nan.
Proof. apply float_of_nan. by rewrite mul_spec, Prim2SF_nan. Qed.

Lemma add_nan_l (x : float) : (nan + x)%float = nan.
Proof. apply float_of_nan. by rewrite add_spec, Prim2SF_nan. Qed.

Lemma sub_nan_l (x : float) : (nan - x)%float = nan.
Proof. apply float_of_nan. by rewrite sub_spec, Prim2SF_nan. Qed.

Lemma sub_nan_r (x : float) : (x - nan)%float = nan.
Proof.
  apply float_of_nan. rewrite sub_spec, Prim2SF_nan.
  unfold SF64sub, SFsub. by destruct (Prim2SF x) as [| | |[] ? ?].
Qed.

Lemma leb_nan_r (x : float) : (x <=? nan)%float = false.
Proof.
  rewrite FloatAxioms.leb_spec, Prim2SF_nan. unfold SFleb, SFcompare.
  by destruct (Prim2SF x) as [| | |[] ? ?].
Qed.

(** The acceptance test rejects the projected point of a NaN normal. *)
Lemma in_triangle_nan (u v p0 pre : vec float) (d : float) :
  in_triangle u v (vsub (vsub pre (scalev d (nan, nan, nan))) p0) = false.
Proof.
  destruct u as [[u0 u1] u2], v as [[v0 v1] v2], p0 as [[x0 x1] x2], pre as [[r0 r1] r2].
  unfold in_triangle, dot, cross, vsub, scalev, vneg.
  cbn [s_zero s_le s_add s_sub s_mul float_scalar].
  rewrite !mul_nan_r, !sub_nan_r, !sub_nan_l, !mul_nan_r, !sub_nan_l, !mul_nan_l,
    !add_nan_l, leb_nan_r. done.
Qed.

Lemma unit_normal_zero (n : vec float) :
  is_zero n.1.1 -> is_zero n.1.2 -> is_zero n.2 -> vdiv n (norm n) = (nan, nan, nan).
Proof.
  destruct n as [[n0 n1] n2]. simpl.
  intros [-> | ->] [-> | ->] [-> | ->]; vm_compute; reflexivity.
Qed.

(** * More on the constructor *)

(** X1.  A mesh that the constructor returns holds the two arrays it was
    given, a spatial index over the vertices, and one normal per triangle:
    for every row of the connectivity the three subscripts read a vertex,
    and the normal of the row is cross(p1 - p0, p2 - p0) divided by its
    norm. *)
Theorem Mesh_init_stores_inputs {F : Type} {SF : Scalar F}
    (vs : list (vec F)) (cs : list (Z * Z * Z)) (m : Mesh F) :
  Mesh_init vs cs = Return m ->
  verts m = vs /\ connectivity m = cs /\ tree m = vs /\
  length (normals m) = length cs /\
  forall i c0 c1 c2, cs !! i = Some (c0, c1, c2) ->
    exists p0 p1 p2,
      np_getitem vs c0 = Return p0 /\ np_getitem vs c1 = Return p1 /\
      np_getitem vs c2 = Return p2 /\
      let n := cross (vsub p1 p0) (vsub p2 p0) in
      normals m !! i = Some (vdiv n (norm n)).
Proof.
  intros H. apply Mesh_init_spec in H as (<- & <- & Hwf & _).
  split_and!; try done; [apply (wf_tree m Hwf) | apply (wf_normals m Hwf) |].
  intros i c0 c1 c2 Hc.
  destruct (wf_triangles m Hwf i) as (a0 & a1 & a2 & p0 & p1 & p2 & Ha & H0 & H1 & H2 & Hn).
  { by apply lookup_lt_Some in Hc. }
  assert (a0 = c0 /\ a1 = c1 /\ a2 = c2) as (-> & -> & ->) by (split_and!; congruence).
  exists p0, p1, p2. auto.
Qed.

Lemma Mesh_init_stores_inputs_witness :
  verts quad_mesh = quad_verts /\ connectivity quad_mesh = quad_conn /\
  tree quad_mesh = quad_verts /\ length (normals quad_mesh) = length quad_conn /\
  forall i c0 c1 c2, quad_conn !! i = Some (c0, c1, c2) ->
    exists p0 p1 p2,
      np_getitem quad_verts c0 = Return p0 /\ np_getitem quad_verts c1 = Return p1 /\
      np_getitem quad_verts c2 = Return p2 /\
      let n := cross (vsub p1 p0) (vsub p2 p0) in
      normals quad_mesh !! i = Some (vdiv n (norm n)).
Proof.
  apply (Mesh_init_stores_inputs quad_verts quad_conn quad_mesh).
  vm_compute. reflexivity.
Defined.

(** X2.  The constructor returns a mesh exactly when every vertex index of
    every triangle lies in [-N, N), N the number of vertices; otherwise,
    and only then, it raises IndexError.  It has no other outcome. *)
Theorem Mesh_init_fails_iff_out_of_range {F : Type} {SF : Scalar F}
    (vs : list (vec F)) (cs : list (Z * Z * Z)) :
  ((exists m, Mesh_init vs cs = Return m) <-> all_in_range (length vs) cs) /\
  (Mesh_init vs cs = Raise IndexError <-> ~ all_in_range (length vs) cs).
Proof.
  assert ((exists m, Mesh_init vs cs = Return m) <-> all_in_range (length vs) cs) as Hret.
  { rewrite <- indices_valid_in_range.
    split; [intros [m Hm]; by eapply Mesh_init_Return_valid | apply Mesh_init_total]. }
  split; [exact Hret |]. split.
  - intros Hr Hall. apply Hret in Hall as [m Hm]. congruence.
  - intros Hn. destruct (Mesh_init vs cs) as [m|e] eqn:Hm.
    + exfalso. apply Hn, Hret. eauto.
    + by apply Mesh_init_Raise in Hm as ->.
Qed.

(** X3.  After construction the keys of node_to_tri are exactly the
    integers that some triangle names as a vertex, and no key holds an
    empty list: a vertex that no triangle names is absent from the dict. *)
Theorem node_to_tri_keys {F : Type} {SF : Scalar F}
    (vs : list (vec F)) (cs : list (Z * Z * Z)) (m : Mesh F) (v : Z) :
  Mesh_init vs cs = Return m ->
  node_to_tri m !! v <> Some [] /\
  (node_to_tri m !! v = None <->
   forall t c0 c1 c2, cs !! t = Some (c0, c1, c2) -> v <> c0 /\ v <> c1 /\ v <> c2).
Proof.
  intros H. apply Mesh_init_spec in H as (_ & <- & Hwf & Hne).
  split; [apply Hne |].
  pose proof (wf_adjacency m Hwf v) as Hadj. unfold adjacency in Hadj. split.
  - intros Hnone t c0 c1 c2 Hc. rewrite Hnone in Hadj. simpl in Hadj.
    assert (t ∉ incident 0 (connectivity m) v) as Hnot
      by (rewrite <- Hadj; apply not_elem_of_nil).
    rewrite elem_of_incident in Hnot.
    split_and!; intros ->; apply Hnot; exists c0, c1, c2;
      rewrite Nat.sub_0_r; (split; [lia |]); auto.
  - intros Hno. destruct (node_to_tri m !! v) as [[|t l]|] eqn:Hl; [| | done].
    + by destruct (Hne v).
    + exfalso. simpl in Hadj.
      assert (t ∈ incident 0 (connectivity m) v) as Hin by (rewrite <- Hadj; left).
      apply elem_of_incident in Hin as (c0 & c1 & c2 & _ & Hc & Hv).
      destruct (Hno _ _ _ _ Hc) as (? & ? & ?). destruct Hv as [<-|[<-|<-]]; done.
Qed.

Lemma node_to_tri_keys_witness :
  node_to_tri stray_mesh !! 3%Z <> Some [] /\
  (node_to_tri stray_mesh !! 3%Z = None <->
   forall t c0 c1 c2, stray_conn !! t = Some (c0, c1, c2) ->
                      3%Z <> c0 /\ 3%Z <> c1 /\ 3%Z <> c2).
Proof.
  apply (node_to_tri_keys stray_verts stray_conn stray_mesh 3).
  vm_compute. reflexivity.
Defined.

(** X4.  Triangle t stands in the list of vertex v as many times as v
    stands among the three indices of row t: a triangle that names a vertex
    twice is appended twice to the list of that vertex. *)
Theorem node_to_tri_multiplicity {F : Type} {SF : Scalar F}
    (vs : list (vec F)) (cs : list (Z * Z * Z)) (m : Mesh F) (t : nat) (c0 c1 c2 v : Z) :
  Mesh_init vs cs = Return m ->
  cs !! t = Some (c0, c1, c2) ->
  count_occ Nat.eq_dec (adjacency (node_to_tri m) v) t
  = count_occ Z.eq_dec [c0; c1; c2] v.
Proof.
  intros H Hc. apply Mesh_init_spec in H as (_ & <- & Hwf & _).
  rewrite (wf_adjacency m Hwf), count_occ_incident, Nat.sub_0_r, Hc.
  destruct (decide (0 <= t)); [done | lia].
Qed.

Lemma node_to_tri_multiplicity_witness :
  count_occ Nat.eq_dec (adjacency (node_to_tri pinch_mesh) 0) 0
  = count_occ Z.eq_dec [0; 0; 1]%Z 0%Z.
Proof.
  apply (node_to_tri_multiplicity flat_verts pinch_conn pinch_mesh 0 0 0 1 0).
  - vm_compute. reflexivity.
  - reflexivity.
Defined.

(** X5.  A negative vertex index c that the constructor accepts reads the
    vertex at position c + N, but triangle t is filed under the key c
    itself; under the key c + N it stands only if the row names c + N as
    well.  The nearest-vertex query never answers a negative index, so no
    call reads the list filed under c. *)
Theorem negative_index_filed_under_itself {F : Type} {SF : Scalar F}
    (vs : list (vec F)) (cs : list (Z * Z * Z)) (m : Mesh F)
    (t : nat) (c0 c1 c2 c : Z) :
  Mesh_init vs cs = Return m ->
  cs !! t = Some (c0, c1, c2) ->
  c ∈ [c0; c1; c2] ->
  (c < 0)%Z ->
  let c' := (c + Z.of_nat (length vs))%Z in
  np_getitem vs c = getitem vs (Z.to_nat c') /\
  t ∈ adjacency (node_to_tri m) c /\
  (t ∈ adjacency (node_to_tri m) c' <-> c' ∈ [c0; c1; c2]) /\
  forall p, tree_query (tree m) p <> c.
Proof.
  intros Hinit Hc Hin Hneg c'.
  pose proof (Mesh_init_Return_valid vs cs m Hinit t c0 c1 c2 Hc) as Hvalid.
  apply Mesh_init_spec in Hinit as (<- & <- & Hwf & _).
  assert (forall v, t ∈ adjacency (node_to_tri m) v <-> v ∈ [c0; c1; c2]) as Hmem.
  { intros v. rewrite (wf_adjacency m Hwf), elem_of_incident, elem_of_triple. split.
    - intros (a0 & a1 & a2 & _ & Ha & Hv). rewrite Nat.sub_0_r in Ha.
      assert (a0 = c0 /\ a1 = c1 /\ a2 = c2) as (-> & -> & ->) by (split_and!; congruence).
      done.
    - intros Hv. exists c0, c1, c2. rewrite Nat.sub_0_r. split; [lia |]. done. }
  split_and!.
  - apply np_getitem_negative; [done |].
    assert (in_range (length (verts m)) c) as Hr.
    { apply np_pos_is_Some. destruct Hvalid as (? & ? & ?).
      apply elem_of_triple in Hin as [<-|[<-|<-]]; done. }
    unfold in_range in Hr. lia.
  - by apply Hmem.
  - apply Hmem.
  - intros p. pose proof (tree_query_nonneg (tree m) p). lia.
Qed.

Lemma negative_index_filed_under_itself_witness :
  np_getitem wrap_verts (-1) = getitem wrap_verts 2 /\
  0 ∈ adjacency (node_to_tri wrap_mesh) (-1) /\
  (0 ∈ adjacency (node_to_tri wrap_mesh) 2 <-> 2%Z ∈ [0; 1; -1]%Z) /\
  forall p, tree_query (tree wrap_mesh) p <> (-1)%Z.
Proof.
  apply (negative_index_filed_under_itself wrap_verts wrap_conn wrap_mesh 0 0 1 (-1) (-1)).
  - vm_compute. reflexivity.
  - reflexivity.
  - apply elem_of_triple. auto.
  - lia.
Defined.

(** X6.  In exact arithmetic the stored normal of a triangle whose raw
    normal is not zero has length one and is perpendicular to both edges
    p1 - p0 and p2 - p0 of the triangle. *)
Theorem stored_normal_unit_orthogonal (vs : list (vec R)) (cs : list (Z * Z * Z))
    (m : Mesh R) (i : nat) (p0 p1 p2 n : vec R) :
  Mesh_init vs cs = Return m ->
  corners m i = Return (p0, p1, p2) ->
  cross (vsub p1 p0) (vsub p2 p0) <> vzero ->
  normals m !! i = Some n ->
  dot n n = 1%R /\ dot n (vsub p1 p0) = 0%R /\ dot n (vsub p2 p0) = 0%R.
Proof.
  intros Hinit Hc HN Hn. apply Mesh_init_spec in Hinit as (_ & _ & Hwf & _).
  rewrite (wf_triangle m i p0 p1 p2 Hwf Hc) in Hn. injection Hn as <-.
  unfold unit_normal. cbv zeta.
  apply norm_nonzero in HN as Hs. split; [by apply dot_unit |].
  revert Hs. generalize (norm (cross (vsub p1 p0) (vsub p2 p0))). intros s Hs.
  destruct (vsub p1 p0) as [[u0 u1] u2], (vsub p2 p0) as [[v0 v1] v2].
  vec_unfold. split; field; done.
Qed.

Lemma stored_normal_unit_orthogonal_witness :
  let n := unit_normal (0, 0, 0)%R (1, 0, 0)%R (0, 1, 0)%R in
  dot n n = 1%R /\
  dot n (vsub (1, 0, 0)%R (0, 0, 0)%R) = 0%R /\ dot n (vsub (0, 1, 0)%R (0, 0, 0)%R) = 0%R.
Proof.
  apply (stored_normal_unit_orthogonal tri_verts tri_conn tri_mesh 0).
  - reflexivity.
  - reflexivity.
  - vec_unfold. intros [= _ _ H]. lra.
  - reflexivity.
Defined.

(** X7.  In exact arithmetic the normal follows the winding: a row that
    lists the same three vertices with the last two exchanged gets the
    opposite normal. *)
Theorem reversed_winding_negates_normal (vs : list (vec R)) (cs : list (Z * Z * Z))
    (m : Mesh R) (i j : nat) (c0 c1 c2 : Z) (n : vec R) :
  Mesh_init vs cs = Return m ->
  cs !! i = Some (c0, c1, c2) ->
  cs !! j = Some (c0, c2, c1) ->
  normals m !! i = Some n ->
  normals m !! j = Some (vneg n).
Proof.
  intros Hinit Hi Hj Hn. apply Mesh_init_spec in Hinit as (_ & <- & Hwf & _).
  destruct (wf_triangles m Hwf i) as (a0 & a1 & a2 & p0 & p1 & p2 & Ha & G0 & G1 & G2 & Hni).
  { by apply lookup_lt_Some in Hi. }
  destruct (wf_triangles m Hwf j) as (b0 & b1 & b2 & q0 & q1 & q2 & Hb & K0 & K1 & K2 & Hnj).
  { by apply lookup_lt_Some in Hj. }
  assert (a0 = c0 /\ a1 = c1 /\ a2 = c2) as (-> & -> & ->) by (split_and!; congruence).
  assert (b0 = c0 /\ b1 = c2 /\ b2 = c1) as (-> & -> & ->) by (split_and!; congruence).
  assert (q0 = p0 /\ q1 = p2 /\ q2 = p1) as (-> & -> & ->) by (split_and!; congruence).
  rewrite Hnj, unit_normal_swap. congruence.
Qed.

Lemma reversed_winding_negates_normal_witness :
  normals flip_mesh !! 1 = Some (vneg (unit_normal (0, 0, 0)%R (1, 0, 0)%R (0, 1, 0)%R)).
Proof.
  apply (reversed_winding_negates_normal tri_verts flip_conn flip_mesh 0 1 0 1 2).
  - reflexivity.
  - reflexivity.
  - reflexivity.
  - reflexivity.
Defined.

(** X8.  node_to_tri is a function of the connectivity alone: two meshes
    built on the same connectivity have the same dict, whatever the vertex
    positions are. *)
Theorem node_to_tri_ignores_positions {F : Type} {SF : Scalar F}
    (vs vs' : list (vec F)) (cs : list (Z * Z * Z))
    (m m' : Mesh F) :
  Mesh_init vs cs = Return m ->
  Mesh_init vs' cs = Return m' ->
  node_to_tri m' = node_to_tri m.
Proof.
  intros H H'.
  apply Mesh_init_spec in H as (_ & Hc & Hwf & Hne).
  apply Mesh_init_spec in H' as (_ & Hc' & Hwf' & Hne').
  apply map_eq. intros v.
  pose proof (wf_adjacency m Hwf v) as Ha. pose proof (wf_adjacency m' Hwf' v) as Ha'.
  rewrite Hc in Ha. rewrite Hc', <- Ha in Ha'. unfold adjacency in Ha'.
  specialize (Hne v). specialize (Hne' v).
  destruct (node_to_tri m !! v) as [l|], (node_to_tri m' !! v) as [l'|];
    simpl in Ha'; congruence.
Qed.

Lemma node_to_tri_ignores_positions_witness :
  node_to_tri flat_mesh = node_to_tri stray_mesh.
Proof.
  apply (node_to_tri_ignores_positions stray_verts flat_verts stray_conn).
  - vm_compute. reflexivity.
  - vm_compute. reflexivity.
Defined.

(** X9.  Triangles added at the end of the connectivity leave the earlier
    ones as they were: the normals of the shorter mesh are the first
    normals of the longer one, and the list of every vertex only grows at
    its end, by indices of the added triangles. *)
Theorem Mesh_init_append {F : Type} {SF : Scalar F}
    (vs : list (vec F)) (cs cs' : list (Z * Z * Z))
    (m m' : Mesh F) (v : Z) :
  Mesh_init vs cs = Return m ->
  Mesh_init vs (cs ++ cs') = Return m' ->
  normals m = take (length cs) (normals m') /\
  exists l, adjacency (node_to_tri m') v = adjacency (node_to_tri m) v ++ l /\
            Forall (fun t => length cs <= t) l.
Proof.
  intros H H'.
  apply Mesh_init_spec in H as (Hv & Hc & Hwf & _).
  apply Mesh_init_spec in H' as (Hv' & Hc' & Hwf' & _).
  split.
  - apply list_eq. intros i.
    pose proof (wf_normals m Hwf) as Hl. pose proof (wf_normals m' Hwf') as Hl'.
    rewrite Hc in Hl. rewrite Hc', length_app in Hl'.
    destruct (decide (i < length cs)) as [Hi|Hi].
    + rewrite lookup_take_lt by done.
      destruct (wf_triangles m Hwf i) as (a0 & a1 & a2 & p0 & p1 & p2 & Ha & G0 & G1 & G2 & Hn).
      { by rewrite Hc. }
      destruct (wf_triangles m' Hwf' i)
        as (b0 & b1 & b2 & q0 & q1 & q2 & Hb & K0 & K1 & K2 & Hn').
      { rewrite Hc', length_app. lia. }
      rewrite Hc in Ha. rewrite Hc', lookup_app_l in Hb by done.
      rewrite Hv in G0, G1, G2. rewrite Hv' in K0, K1, K2.
      assert (a0 = b0 /\ a1 = b1 /\ a2 = b2) as (-> & -> & ->) by (split_and!; congruence).
      assert (q0 = p0 /\ q1 = p1 /\ q2 = p2) as (-> & -> & ->) by (split_and!; congruence).
      congruence.
    + rewrite lookup_take_ge by lia. apply lookup_ge_None. lia.
  - exists (incident (length cs) cs' v). split; [| apply incident_ge].
    rewrite (wf_adjacency m Hwf), (wf_adjacency m' Hwf'), Hc, Hc'. apply incident_app.
Qed.

Lemma Mesh_init_append_witness :
  normals half_mesh = take (length half_conn) (normals quad_mesh) /\
  exists l, adjacency (node_to_tri quad_mesh) 0 = adjacency (node_to_tri half_mesh) 0 ++ l /\
            Forall (fun t => length half_conn <= t) l.
Proof.
  apply (Mesh_init_append quad_verts half_conn [(0, 2, 3)]%Z half_mesh quad_mesh 0).
  - vm_compute. reflexivity.
  - vm_compute. reflexivity.
Defined.

(** * More on project_new_point *)

(** X10.  On any mesh object, constructed or not: once the nearest-vertex
    query has answered, whatever index it answers and in whatever order
    argsort leaves equal keys, the rest of the call raises the exception
    of an unconnected vertex or an IndexError, or returns; it never reads
    projected_point or intriangle before the loop has assigned them. *)
Theorem project_raises_only_lookup_errors {F : Type} {SF : Scalar F}
    (sort : list F -> list nat) (m : Mesh F) (node : Z) (p : vec F) (e : exn) :
  is_argsort sort ->
  snd (project_body sort m node p) = Raise e -> e = UnconnectedVertex \/ e = IndexError.
Proof.
  intros Hsort. rewrite project_body_unfold. simpl.
  set (T := adjacency (node_to_tri m) node).
  destruct (length T =? 0)%nat eqn:Hlen; [intros [= <-]; by left |].
  intros Hr. right. apply Nat.eqb_neq in Hlen.
  apply bind_Raise in Hr as [Hr|(pre & _ & Hr)]; [by apply pre_project_Raise in Hr |].
  apply bind_Raise in Hr as [Hr|(CPP & HCPP & Hr)]; [by apply plane_distances_Raise in Hr |].
  apply search_Raise in Hr as [Hr|(_ & Hnil & _)]; [done |]. exfalso.
  apply (f_equal length) in Hnil.
  rewrite (is_argsort_length sort), length_map,
    (plane_distances_length _ _ _ _ HCPP) in Hnil by done.
  simpl in Hnil. lia.
Qed.

Lemma project_raises_only_lookup_errors_witness :
  UnconnectedVertex = UnconnectedVertex \/ UnconnectedVertex = IndexError.
Proof.
  apply (project_raises_only_lookup_errors argsort stray_mesh 3 (3, 3, 3)%float).
  - apply argsort_is_argsort.
  - vm_compute. reflexivity.
Defined.

(** X11.  The triangle index a call returns is -1 or the index of a row of
    the connectivity that names the nearest vertex of the query point: the
    search never leaves the triangles around that one vertex. *)
Theorem project_returns_triangle_at_nearest_vertex {F : Type} {SF : Scalar F}
    (vs : list (vec F)) (cs : list (Z * Z * Z)) (m : Mesh F) (p q : vec F) (t : Z) :
  Mesh_init vs cs = Return m ->
  snd (project_new_point m p) = Return (q, t) ->
  t = (-1)%Z \/
  exists i c0 c1 c2,
    t = Z.of_nat i /\ cs !! i = Some (c0, c1, c2) /\
    tree_query (tree m) p ∈ [c0; c1; c2].
Proof.
  intros Hinit Hr. apply Mesh_init_spec in Hinit as (_ & <- & Hwf & _).
  destruct (project_cases m p Hwf) as [[_ Hr']|[_ (q' & t' & Hr' & Ht)]]; [congruence |].
  assert (t' = t) as -> by congruence.
  destruct Ht as [->|(i & -> & Hi)]; [by left | right].
  destruct (wf_incident m _ i Hwf Hi) as (c0 & c1 & c2 & _ & _ & _ & Hc & Hv & _).
  exists i, c0, c1, c2. split_and!; try done. by apply elem_of_triple.
Qed.

Lemma project_returns_triangle_at_nearest_vertex_witness :
  0%Z = (-1)%Z \/
  exists i c0 c1 c2,
    0%Z = Z.of_nat i /\ quad_conn !! i = Some (c0, c1, c2) /\
    tree_query (tree quad_mesh) (0.2, 0.2, 3)%float ∈ [c0; c1; c2].
Proof.
  apply (project_returns_triangle_at_nearest_vertex quad_verts quad_conn quad_mesh
           (0.2, 0.2, 3)%float (0.2, 0.2, 0)%float).
  - vm_compute. reflexivity.
  - vm_compute. reflexivity.
Defined.

(** X12.  Calls do not disturb each other.  After a call at q, on any mesh
    object, a call at p returns what it would have returned before; the two
    calls leave the same mesh in either order; and a second call at q
    returns the result of the first and changes nothing more. *)
Theorem project_calls_commute {F : Type} {SF : Scalar F} (m : Mesh F) (p q : vec F) :
  let m1 := fst (project_new_point m q) in
  snd (project_new_point m1 p) = snd (project_new_point m p) /\
  fst (project_new_point m1 p) = fst (project_new_point (fst (project_new_point m p)) q) /\
  project_new_point m1 q = (m1, snd (project_new_point m q)).
Proof.
  cbv zeta. rewrite !project_fst. cbn [touched tree].
  assert (forall r, snd (project_new_point (touched m (tree_query (tree m) q)) r)
                    = snd (project_new_point m r)) as Hsame.
  { intros r. apply project_result_ext; try done. intros v. apply adjacency_touched. }
  split_and!.
  - apply Hsame.
  - apply touched_comm.
  - rewrite (surjective_pairing (project_new_point _ q)), project_fst. cbn [touched tree].
    f_equal; [apply touched_idemp | apply Hsame].
Qed.

(** X13.  The first step of a call, in exact arithmetic: when the summed
    normal of the triangles around the nearest vertex is not zero, the
    pre-projected point lies in the plane through that vertex that is
    perpendicular to the summed normal. *)
Theorem pre_projection_on_tangent_plane (m : Mesh R) (node : Z) (T : list nat)
    (p pre pv : vec R) (rows : list (vec R)) :
  pre_project m node T p = Return pre ->
  mapM (getitem (normals m)) T = Return rows ->
  np_getitem (verts m) node = Return pv ->
  np_sum rows <> vzero ->
  dot (vsub pre pv) (np_sum rows) = 0%R.
Proof.
  intros Hpre Hrows Hpv HS. unfold pre_project in Hpre.
  rewrite Hrows, Hpv in Hpre. simpl in Hpre. injection Hpre as <-.
  apply norm_nonzero in HS.
  rewrite vsub_swap. by apply (dot_reject (vsub p pv)).
Qed.

Lemma pre_projection_on_tangent_plane_witness :
  exists pre,
    pre_project tri_mesh 0 [0] (0, 0, 5)%R = Return pre /\
    dot (vsub pre (0, 0, 0)%R)
        (np_sum [unit_normal (0, 0, 0)%R (1, 0, 0)%R (0, 1, 0)%R]) = 0%R.
Proof.
  eexists. split; [reflexivity |].
  apply (pre_projection_on_tangent_plane tri_mesh 0 [0] (0, 0, 5)%R).
  - reflexivity.
  - reflexivity.
  - reflexivity.
  - cbn [np_sum fold_left]. vec_unfold.
    replace ((0 - 0) * (0 - 0) - (0 - 0) * (1 - 0))%R with 0%R by lra.
    replace ((0 - 0) * (0 - 0) - (1 - 0) * (0 - 0))%R with 0%R by lra.
    replace ((1 - 0) * (1 - 0) - (0 - 0) * (0 - 0))%R with 1%R by lra.
    replace (0 * 0 + 0 * 0 + 1 * 1)%R with 1%R by lra. rewrite sqrt_1.
    intros [= _ _ H]. lra.
Defined.

(** X14.  What a hit means, in exact arithmetic.  When a call returns the
    index of a triangle that is not degenerate, the returned point lies in
    the plane of that triangle and inside it up to the tolerance of the
    test: it is p0 + a (p1 - p0) + b (p2 - p0) with 0 <= a <= 1,
    0 <= b <= 1 and a + b <= 1.001. *)
Theorem returned_point_inside_returned_triangle (vs : list (vec R))
    (cs : list (Z * Z * Z)) (m : Mesh R) (p q : vec R) (i : nat) (p0 p1 p2 : vec R) :
  Mesh_init vs cs = Return m ->
  snd (project_new_point m p) = Return (q, Z.of_nat i) ->
  corners m i = Return (p0, p1, p2) ->
  cross (vsub p1 p0) (vsub p2 p0) <> vzero ->
  exists a b,
    q = vadd p0 (vadd (scalev a (vsub p1 p0)) (scalev b (vsub p2 p0))) /\
    (0 <= a <= 1 /\ 0 <= b <= 1 /\ a + b <= 1001 / 1000)%R.
Proof.
  intros Hinit Hr Hc HN. apply Mesh_init_spec in Hinit as (_ & _ & Hwf & _).
  apply project_Return_hit in Hr as (pre & CPP & o & _ & HCPP & Hcand).
  destruct (candidate_point m pre _ CPP o i q p0 p1 p2 true Hwf HCPP Hcand Hc) as [Hq Hin].
  symmetry in Hin.
  apply in_triangle_plane in Hin as (a & b & Hw & Hab); [| done |].
  - exists a, b. split; [by apply vadd_vsub | done].
  - rewrite Hq, vsub_swap. apply norm_nonzero in HN. by apply (dot_reject (vsub pre p0)).
Qed.

Lemma returned_point_inside_returned_triangle_witness :
  exists a b,
    (0, 0, 0)%R = vadd (0, 0, 0)%R (vadd (scalev a (vsub (1, 0, 0)%R (0, 0, 0)%R))
                                         (scalev b (vsub (0, 1, 0)%R (0, 0, 0)%R))) /\
    (0 <= a <= 1 /\ 0 <= b <= 1 /\ a + b <= 1001 / 1000)%R.
Proof.
  apply (returned_point_inside_returned_triangle tri_verts tri_conn tri_mesh
           (0, 0, 0)%R (0, 0, 0)%R 0).
  - reflexivity.
  - assert (tree_query (tree tri_mesh) (0, 0, 0)%R = 0%Z) as Hnear.
    { cbn [tree tri_mesh tri_verts tree_query nearest_scan]. vec_unfold.
      Rltb_decide. reflexivity. }
    destruct (project_at_vertex tri_mesh (0, 0, 0)%R) as (t & Hr & Ht).
    + apply (Mesh_init_spec tri_verts tri_conn). reflexivity.
    + rewrite Hnear. reflexivity.
    + rewrite Hnear. discriminate.
    + rewrite Hnear in Ht. apply list_elem_of_singleton in Ht as ->. exact Hr.
  - reflexivity.
  - vec_unfold. intros [= _ _ H]. lra.
Defined.

(** X15.  The simplest case, in exact arithmetic.  When the nearest
    vertex has one incident triangle and that triangle is not degenerate,
    the point a call returns is the orthogonal projection of the query
    point onto the plane of the triangle, p - ((p - p0) . n) n, whether the
    call reports the triangle or -1. *)
Theorem single_triangle_orthogonal_projection (vs : list (vec R)) (cs : list (Z * Z * Z))
    (m : Mesh R) (p q : vec R) (t : Z) (i : nat) (p0 p1 p2 : vec R) :
  Mesh_init vs cs = Return m ->
  adjacency (node_to_tri m) (tree_query (tree m) p) = [i] ->
  corners m i = Return (p0, p1, p2) ->
  cross (vsub p1 p0) (vsub p2 p0) <> vzero ->
  snd (project_new_point m p) = Return (q, t) ->
  let n := unit_normal p0 p1 p2 in
  q = vsub p (scalev (dot (vsub p p0) n) n).
Proof.
  intros Hinit HT Hc HN Hr. cbv zeta.
  apply Mesh_init_spec in Hinit as (_ & _ & Hwf & _).
  pose proof (wf_triangle m i p0 p1 p2 Hwf Hc) as Hn.
  assert (dot (unit_normal p0 p1 p2) (unit_normal p0 p1 p2) = 1%R) as Hnn.
  { apply dot_unit. by apply norm_nonzero. }
  rewrite project_new_point_unfold in Hr. simpl in Hr. rewrite HT in Hr. simpl in Hr.
  apply bind_Return in Hr as (pre & Hpre & Hr).
  apply bind_Return in Hr as (CPP & HCPP & Hr).
  pose proof (plane_distances_length _ _ _ _ HCPP) as Hlen.
  destruct CPP as [|d [|? ?]]; try discriminate. simpl in Hr.
  apply bind_Return in Hr as ([[i' q'] b] & Hcand & Hr).
  assert (q' = q) as ->.
  { destruct b; simpl in Hr; congruence. }
  destruct (candidate_point m pre [i] [d] 0 i' q p0 p1 p2 b Hwf HCPP) as [Hq _]; [done | |].
  { apply candidate_spec in Hcand as (_ & _ & _ & _ & _ & [= <-] & _). done. }
  rewrite Hq. clear Hq Hcand HCPP Hr.
  unfold pre_project in Hpre. cbn [mapM] in Hpre.
  apply getitem_Return in Hn. rewrite Hn in Hpre. cbn [bind np_sum fold_left] in Hpre.
  rewrite (vdiv_unit _ Hnn) in Hpre.
  apply bind_Return in Hpre as (pv & _ & [= <-]).
  by apply project_twice.
Qed.

Lemma single_triangle_orthogonal_projection_witness :
  let p : vec R := (1 / 4, 1 / 4, 5)%R in
  let n := unit_normal (0, 0, 0)%R (1, 0, 0)%R (0, 1, 0)%R in
  exists q t,
    snd (project_new_point tri_mesh p) = Return (q, t) /\
    q = vsub p (scalev (dot (vsub p (0, 0, 0)%R) n) n).
Proof.
  cbv zeta.
  assert (tree_query (tree tri_mesh) (1 / 4, 1 / 4, 5)%R = 0%Z) as Hnear.
  { cbn [tree tri_mesh tri_verts tree_query nearest_scan]. vec_unfold.
    Rltb_decide. reflexivity. }
  assert (well_formed tri_mesh) as Hwf.
  { apply (Mesh_init_spec tri_verts tri_conn). reflexivity. }
  destruct (project_cases tri_mesh (1 / 4, 1 / 4, 5)%R Hwf)
    as [[Hnil _]|(_ & q & t & Hr & _)].
  { rewrite Hnear in Hnil. discriminate. }
  exists q, t. split; [exact Hr |].
  apply (single_triangle_orthogonal_projection tri_verts tri_conn tri_mesh
           (1 / 4, 1 / 4, 5)%R q t 0 (0, 0, 0)%R (1, 0, 0)%R (0, 1, 0)%R).
  - reflexivity.
  - rewrite Hnear. reflexivity.
  - reflexivity.
  - vec_unfold. intros [= _ _ H]. lra.
  - exact Hr.
Defined.

(** X16.  In binary64 a degenerate triangle is never the answer.  A
    triangle whose raw normal is zero in each component has a NaN normal;
    its projected point is NaN, the test sign_r >= 0 fails on it, and no
    call returns the index of that triangle. *)
Theorem degenerate_triangle_never_returned (vs : list (vec float))
    (cs : list (Z * Z * Z)) (m : Mesh float) (p q : vec float) (t : Z)
    (i : nat) (p0 p1 p2 : vec float) :
  Mesh_init vs cs = Return m ->
  corners m i = Return (p0, p1, p2) ->
  (let n := cross (vsub p1 p0) (vsub p2 p0) in
   is_zero n.1.1 /\ is_zero n.1.2 /\ is_zero n.2) ->
  snd (project_new_point m p) = Return (q, t) ->
  t <> Z.of_nat i.
Proof.
  intros Hinit Hc Hz Hr ->. apply Mesh_init_spec in Hinit as (_ & _ & Hwf & _).
  apply project_Return_hit in Hr as (pre & CPP & o & _ & HCPP & Hcand).
  destruct (candidate_point m pre _ CPP o i q p0 p1 p2 true Hwf HCPP Hcand Hc) as [Hq Hin].
  cbv zeta in Hz. destruct Hz as (Hz0 & Hz1 & Hz2).
  unfold unit_normal in Hq. cbv zeta in Hq.
  rewrite (unit_normal_zero _ Hz0 Hz1 Hz2) in Hq.
  rewrite Hq, in_triangle_nan in Hin. discriminate.
Qed.

Lemma degenerate_triangle_never_returned_witness :
  snd (project_new_point flat_mesh (0.5, 1, 0)%float) = Return ((nan, nan, nan), (-1)%Z) /\
  (-1)%Z <> Z.of_nat 0.
Proof.
  split; [vm_compute; reflexivity |].
  apply (degenerate_triangle_never_returned flat_verts flat_conn flat_mesh
           (0.5, 1, 0)%float (nan, nan, nan) (-1) 0
           (0, 0, 0)%float (1, 0, 0)%float (2, 0, 0)%float).
  - vm_compute. reflexivity.
  - vm_compute. reflexivity.
  - vm_compute. repeat split; by left.
  - vm_compute. reflexivity.
Defined.
